(** * react-native-image-editor (OpenHarmony port): crop / resize pipeline

    Shallow embedding of [ImageEditorModule.ts].  The repository carries two
    variants of the module:

    - the variant that keeps the request in module-scope variables
      ([newOptions], [resizeScaleSize]); it is embedded in [Module Shared];
    - the variant that threads the request through the calls as an argument;
      it is embedded in [Module Scoped].

    JavaScript numbers are modelled twice.  [Module Shared],
    [Module Scoped] and [Module Sim] take them as exact rationals ([Q]) and
    carry the whole pipeline with the trace of its calls: they serve the
    properties on control flow, I/O and state kept between calls, where
    [NaN], the infinities and binary rounding play no part.  [Module Ieee]
    takes them as IEEE 754 binary64 values, and [Module Double] repeats the
    guards of [cropImage] and the crop and resize stage of [imageEditor] on
    them: it serves the properties that depend on [===], on [Math.ceil] and
    on rounded quotients and products.

    The OpenHarmony image, file and logging primitives are external to the
    repository; they are taken as an interface ([Platform]) whose operations
    leave an [event] in the trace of the call. *)

From Stdlib Require Import QArith Qround Qabs ZArith List String Ascii Bool Lia.
From Stdlib Require Import DecimalString Lqa Qpower SpecFloat.
Import ListNotations.

Open Scope string_scope.
Open Scope list_scope.
Open Scope Q_scope.

(** ** JavaScript values *)

Definition number := Q.

(** [Math.floor], [Math.ceil], [Math.abs], [Math.max] *)
Module Math.
Definition floor (n : number) : number := inject_Z (Qfloor n).
Definition ceil (n : number) : number := inject_Z (Qceiling n).
Definition abs (n : number) : number := Qabs n.
Definition max (a b : number) : number := if Qle_bool a b then b else a.
End Math.

(** [a === b] and [a !== b] on numbers *)
Definition num_eq (a b : number) : bool := Qeq_bool a b.
Definition num_neq (a b : number) : bool := negb (Qeq_bool a b).
(** [a > b], [a < b], [a <= b] *)
Definition num_gt (a b : number) : bool := negb (Qle_bool a b).
Definition num_lt (a b : number) : bool := negb (Qle_bool b a).
Definition num_le (a b : number) : bool := Qle_bool a b.

(** Truthiness: a number is truthy unless it is zero, a string unless it is
    empty, an optional value unless it is absent. *)
Definition truthy_num (n : number) : bool := negb (Qeq_bool n 0).
Definition truthy_str (s : string) : bool := negb (String.eqb s "").
Definition truthy_opt_num (o : option number) : bool :=
  match o with Some n => truthy_num n | None => false end.
Definition truthy_opt_str (o : option string) : bool :=
  match o with Some s => truthy_str s | None => false end.
Definition truthy_opt_bool (o : option bool) : bool :=
  match o with Some b => b | None => false end.

(** [s === 'lit'] where [s] may be [undefined] *)
Definition str_is (o : option string) (lit : string) : bool :=
  match o with Some s => String.eqb s lit | None => false end.

(** Interpolation of a possibly undefined string in a template literal. *)
Definition js_str (o : option string) : string :=
  match o with Some s => s | None => "undefined" end.

(** Interpolation of an integer in a template literal. *)
Definition js_int (z : Z) : string := NilZero.string_of_int (Z.to_int z).

(** [uri.split('.')] *)
Fixpoint split_dot_aux (cur : string) (s : string) : list string :=
  match s with
  | EmptyString => [cur]
  | String c rest =>
      if Ascii.eqb c "."%char then cur :: split_dot_aux "" rest
      else split_dot_aux (cur ++ String c "")%string rest
  end.
Definition split_dot (s : string) : list string := split_dot_aux "" s.

(** [s.startsWith(p)] *)
Definition startsWith (s p : string) : bool := String.prefix p s.

(** ** Data model ([interface size], [interface offset], [image.Region],
    [interface ImageCropData], [interface EditorResult]) *)

Record size := mkSize { width : number; height : number }.
Record offset := mkOffset { x : number; y : number }.

(** [image.Region] *)
Record Region := mkRegion { rx : number; ry : number; rsize : size }.

(** The [offset] object as it arrives from the caller: [cropImage] tests
    ['x' in offset] and ['y' in offset], so either key may be absent. *)
Record offset_arg := mkOffsetArg { arg_x : option number; arg_y : option number }.

(** [options : ImageCropData] as it arrives from the caller.  [offset] and
    [size] are required by the interface but tested for presence at run
    time, hence optional here. *)
Record CropArgs := mkArgs {
  a_offset : option offset_arg;
  a_size : option size;
  a_displaySize : option size;
  a_resizeMode : option string;
  a_quality : option number;
  a_format : option string;
  a_includeBase64 : option bool
}.

(** [newOptions : ImageCropData], the request the pipeline works on. *)
Record ImageCropData := mkData {
  d_offset : offset;
  d_size : size;
  d_displaySize : option size;
  d_resizeMode : option string;
  d_quality : option number;
  d_format : option string;
  d_includeBase64 : option bool
}.

Record EditorResult := mkResult {
  res_uri : string;
  res_path : string;
  res_name : string;
  res_width : number;
  res_height : number;
  res_size : Z;
  res_type : string;
  res_base64 : option string
}.

Definition size_eq (a b : size) : Prop :=
  width a == width b /\ height a == height b.

(** ** Platform interface and trace of a call *)

Definition bytes := list Byte.byte.

Inductive event :=
| LogInfo (msg : string)
| LogWarn (msg : string)
| LogError (msg : string)
| IoLoadBase (uri : string)            (* loadBase: inline data *)
| IoHttp (uri : string)                (* loadHttp: network fetch *)
| IoOpenRead (uri : string)            (* fs.openSync(uri, READ_ONLY) *)
| IoDecode (imageData : string)        (* createImageSource + createPixelMap *)
| IoGetImageInfo
| IoCrop (r : Region)
| IoScale (xr yr : number)
| IoPacking (format : string) (quality : number)
| IoOpenCreate (path : string)         (* fs.openSync(path, CREATE | READ_WRITE) *)
| IoWrite (path : string) (len : nat)
| IoClose
| IoBase64
| IoRelease
| IoStat (path : string).

Definition is_io (e : event) : bool :=
  match e with
  | LogInfo _ | LogWarn _ | LogError _ => false
  | _ => true
  end.

Class Platform := {
  PixelMap : Type;
  FS : Type;
  (** [image.createImageSource(data).createPixelMap({editable: true})] *)
  createPixelMap : string -> PixelMap;
  (** [pixelMap.getImageInfo().size] *)
  getImageInfo : PixelMap -> size;
  (** [pixelMap.crop(region)]; [None] when the promise is rejected *)
  crop : PixelMap -> Region -> option PixelMap;
  (** [pixelMap.scale(x, y)] *)
  scale : PixelMap -> number -> number -> PixelMap;
  (** [imagePacker.packing(pixelMap, {format, quality})]; [None] when the
      promise is rejected *)
  packing : PixelMap -> string -> number -> option bytes;
  (** [base64Helper.encodeToStringSync(bytes, BASIC)] *)
  encodeToStringSync : bytes -> string;
  (** [context.cacheDir] *)
  cacheDir : string;
  (** [fs.openSync(path, CREATE | READ_WRITE)] *)
  openCreate : FS -> string -> FS;
  (** [fs.writeSync(fd, data)]: the new file system and the count
      returned; [None] when it throws *)
  writeSync : FS -> string -> bytes -> option (FS * Z);
  (** [fs.statSync(path).size] *)
  statSize : FS -> string -> Z
}.

(** The part of the world a call reads and writes: the file system and the
    clock read by [new Date().getTime()]. *)
Record world `{Platform} := mkWorld { w_fs : FS; w_now : Z }.

Arguments mkWorld {_} _ _.

(** Outcome of the [async] function [cropImage] as its caller observes it:
    the promise is fulfilled with a string or with [undefined] ([Returned
    None]), or an exception escaped. *)
Inductive completion :=
| Returned (v : option string)
| Threw.

(** ** Request validation and defaults (identical in both variants)

    [let quality = 90; if (options.quality) quality = Math.floor(options.quality * 100)] *)
Definition qualityPercent (q : option number) : number :=
  match q with
  | Some v => if truthy_num v then Math.floor (v * 100) else 90
  | None => 90
  end.

Definition msg_uri := "[RNOH]:Please specify a URI".
Definition msg_offset_size := "[RNOH]:Please specify offset and size".
Definition msg_quality := "[RNOH]:quality must be a number between 0 and 1".

Inductive checked :=
| Reject (warning : string)
| Accept (o : offset) (s : size) (quality : number).

(** The three guards at the head of [cropImage], in source order. *)
Definition validate (uri : string) (options : CropArgs) : checked :=
  let quality := qualityPercent (a_quality options) in
  if negb (truthy_str uri) then Reject msg_uri
  else
    match a_offset options, a_size options with
    | Some o, Some s =>
        match arg_x o, arg_y o with
        | Some ox, Some oy =>
            if negb (truthy_num (width s)) || negb (truthy_num (height s))
            then Reject msg_offset_size
            else if num_gt quality 100 || num_lt quality 0
                 then Reject msg_quality
                 else Accept (mkOffset ox oy) s quality
        | _, _ => Reject msg_offset_size
        end
    | _, _ => Reject msg_offset_size
    end.

(** [options.format] when truthy, else the text after the last dot of the
    uri, else ['jpeg']. *)
Definition requestFormat (uri : string) (fmt : option string) : option string :=
  if truthy_opt_str fmt then fmt
  else
    let uris := split_dot uri in
    if (1 <? List.length uris)%nat then Some (List.last uris "") else Some "jpeg".

(** File name, path, MIME type and encoder quality computed by
    [imageEditor] from the request (identical in both variants). *)
Definition canonicalSuffix (fmt : option string) : option string :=
  if str_is fmt "jpeg" || str_is fmt "jpg" then Some "jpeg" else fmt.

Definition fileNameOf (now : Z) (suffix : option string) : string :=
  ("ReactNative_cropped_image_" ++ js_int now ++ "." ++
   (if str_is suffix "jpeg" then "jpg" else js_str suffix))%string.

Definition mimeOf (suffix : option string) : string := ("image/" ++ js_str suffix)%string.

(** [newOptions.quality || 90] *)
Definition packQuality (q : option number) : number :=
  match q with
  | Some v => if truthy_num v then v else 90
  | None => 90
  end.

Definition msg_exceeds := "[RNOH]:The cropped size exceeds the original size".
Definition msg_crop_ok := "imageEditor.Succeeded in crop.".
Definition msg_crop_failed := "imageEditor.Failed to crop.".
Definition msg_packing_failed := "packing failed.".
Definition msg_write_failed := "file write failed".

(** The bounds test of [imageEditor]: does the crop region exceed the
    decoded image? *)
Definition exceeds (o : offset) (s : size) (info : size) : bool :=
  num_gt (x o + width s) (width info) || num_gt (y o + height s) (height info).

(** [getImageInfo().then(...)] with the bounds test, then the primary
    crop.  The callback of the bounds test only logs: its [return] leaves
    the callback, not [imageEditor].  The promise is not awaited; its log
    entry is placed before the crop in the trace. *)
Definition primaryCrop `{Platform} (o : offset) (s : size) (imageData : string)
  : PixelMap * list event :=
  let editorPM := createPixelMap imageData in
  let imageInfo := getImageInfo editorPM in
  let check := if exceeds o s imageInfo then [LogError msg_exceeds] else [] in
  let region := mkRegion (x o) (y o) (mkSize (width s) (height s)) in
  match crop editorPM region with
  | Some pm => (pm, [IoDecode imageData; IoGetImageInfo] ++ check ++
                    [IoCrop region; LogInfo msg_crop_ok])
  | None => (editorPM, [IoDecode imageData; IoGetImageInfo] ++ check ++
                       [IoCrop region; LogError msg_crop_failed])
  end.

(** [displaySize && displaySize.width && displaySize.height] *)
Definition displayGiven (d : option size) : option size :=
  match d with
  | Some ds => if truthy_num (width ds) && truthy_num (height ds) then Some ds else None
  | None => None
  end.

(** ** Variant with module-scope request state
    ([harmony/image_editor/src/main/ets/ImageEditorModule.ts]) *)
Module Shared.

(** [let newOptions] and [let resizeScaleSize] at module scope. *)
Record module_state := mkState {
  newOptions : ImageCropData;
  resizeScaleSize : size
}.

Definition initial : module_state :=
  {| newOptions :=
       {| d_offset := mkOffset 0 0;
          d_size := mkSize 0 0;
          d_displaySize := None;
          d_resizeMode := Some "cover";
          d_quality := None;
          d_format := None;
          d_includeBase64 := Some false |};
     resizeScaleSize := mkSize 0 0 |}.

Definition set_resizeMode (st : module_state) (m : option string) : module_state :=
  let o := newOptions st in
  {| newOptions :=
       {| d_offset := d_offset o; d_size := d_size o;
          d_displaySize := d_displaySize o; d_resizeMode := m;
          d_quality := d_quality o; d_format := d_format o;
          d_includeBase64 := d_includeBase64 o |};
     resizeScaleSize := resizeScaleSize st |}.

Definition set_resizeScaleSize (st : module_state) (s : size) : module_state :=
  {| newOptions := newOptions st; resizeScaleSize := s |}.

(** [TargetRect()].  [None] stands for the exception of
    [JSON.parse(JSON.stringify(undefined))] when no display size is stored.
    The last assignment [targetRegion.size = targetSize] is outside the
    mode cascade and runs for every mode. *)
Definition TargetRect (st : module_state) : option Region :=
  let resizeMode := d_resizeMode (newOptions st) in
  let cropSize := d_size (newOptions st) in
  match d_displaySize (newOptions st) with
  | None => None
  | Some displaySize =>
      let aspect := width cropSize / height cropSize in
      let targetAspect := width displaySize / height displaySize in
      let targetSize := cropSize in
      let targetRegion := mkRegion 0 0 targetSize in
      let '(targetRegion, targetSize) :=
        if str_is resizeMode "cover" then
          let targetRegion :=
            if num_le targetAspect aspect then
              let translation := (width (resizeScaleSize st) - width displaySize) / 2 in
              mkRegion (Math.abs translation) (ry targetRegion) (rsize targetRegion)
            else
              let translation := (height (resizeScaleSize st) - height displaySize) / 2 in
              mkRegion (rx targetRegion) (Math.abs translation) (rsize targetRegion) in
          (mkRegion (rx targetRegion) (ry targetRegion) displaySize, targetSize)
        else if str_is resizeMode "contain" then
          if num_le targetAspect aspect then
            let w := width displaySize in
            (targetRegion, mkSize w (Math.ceil (w / aspect)))
          else
            let h := height displaySize in
            (targetRegion, mkSize (Math.ceil (h * aspect)) h)
        else if str_is resizeMode "center" then
          let targetSize :=
            if num_gt (height cropSize) (height displaySize) then
              let w := width displaySize in
              mkSize w (Math.ceil (w / aspect))
            else targetSize in
          let targetSize :=
            if num_gt (width cropSize) (width displaySize) then
              let h := height displaySize in
              mkSize (Math.ceil (h * aspect)) h
            else targetSize in
          (targetRegion, targetSize)
        else (targetRegion, targetSize) in
      Some (mkRegion (rx targetRegion) (ry targetRegion) targetSize)
  end.

Section Pipeline.
Context `{P : Platform}.

(** [getUriBuffer(uri)] *)
Definition getUriBuffer (uri : string) : string * list event :=
  if startsWith uri "data:" then (uri, [IoLoadBase uri])
  else if startsWith uri "http" then (uri, [IoHttp uri])
  else (uri, []).

(** [imageEditor], the block guarded by
    [newOptions.displaySize && displaySize.width && displaySize.height]. *)
Definition resize (st : module_state) (editorPM : PixelMap)
  : option (PixelMap * module_state * list event) :=
  match displayGiven (d_displaySize (newOptions st)) with
  | None => Some (editorPM, st, [])
  | Some displaySize =>
      let cropSize := d_size (newOptions st) in
      let aspect := width cropSize / height cropSize in
      let targetAspect := width displaySize / height displaySize in
      let st := if num_eq aspect targetAspect
                then set_resizeMode st (Some "stretch") else st in
      let xRatio := width displaySize / width cropSize in
      let yRatio := height displaySize / height cropSize in
      if str_is (d_resizeMode (newOptions st)) "stretch" then
        Some (scale editorPM xRatio yRatio, st, [IoScale xRatio yRatio])
      else if str_is (d_resizeMode (newOptions st)) "cover" then
        let '(pm, st, tr) :=
          if num_neq (width displaySize) (width cropSize)
             || num_neq (height displaySize) (height cropSize)
          then
            let ratio := Math.max xRatio yRatio in
            let pm := scale editorPM ratio ratio in
            (pm, set_resizeScaleSize st (getImageInfo pm),
             [IoScale ratio ratio; IoGetImageInfo])
          else (editorPM, st, []) in
        match TargetRect st with
        | None => None
        | Some targetRegion =>
            match crop pm targetRegion with
            | Some pm' =>
                Some (pm', st, tr ++ [IoCrop targetRegion; LogInfo msg_crop_ok])
            | None =>
                Some (pm, st, tr ++ [IoCrop targetRegion; LogError msg_crop_failed])
            end
        end
      else
        match TargetRect st with
        | None => None
        | Some targetRegion =>
            let xRatio := width (rsize targetRegion) / width cropSize in
            let yRatio := height (rsize targetRegion) / height cropSize in
            Some (scale editorPM xRatio yRatio, st, [IoScale xRatio yRatio])
        end
  end.

(** [imageEditor], from the last [getImageInfo] to the assembly of the
    result.  The file is opened before packing; an exception of
    [writeSync] inside the [then] callback reaches the [catch] of the
    packing promise.  The size is read back with [statSync]. *)
Definition persist (st : module_state) (w : world) (editorPM : PixelMap)
  : EditorResult * world * list event :=
  let getImageInfo_ := getImageInfo editorPM in
  let suffix := canonicalSuffix (d_format (newOptions st)) in
  let fileName := fileNameOf (w_now w) suffix in
  let path := (cacheDir ++ "/" ++ fileName)%string in
  let quality := packQuality (d_quality (newOptions st)) in
  let fs := openCreate (w_fs w) path in
  let include := truthy_opt_bool (d_includeBase64 (newOptions st)) in
  let '(fs, base64Data, tr) :=
    match packing editorPM (mimeOf suffix) quality with
    | Some data =>
        match writeSync fs path data with
        | Some (fs', writeLen) =>
            (fs',
             if include then encodeToStringSync data else "",
             [IoWrite path (List.length data); IoClose]
             ++ (if include then [IoBase64] else []))
        | None => (fs, "", [LogError msg_packing_failed])
        end
    | None => (fs, "", [LogError msg_packing_failed])
    end in
  let size_ := statSize fs path in
  ({| res_uri := ("file://" ++ path)%string;
      res_path := path;
      res_name := fileName;
      res_width := width getImageInfo_;
      res_height := height getImageInfo_;
      res_size := size_;
      res_type := mimeOf suffix;
      res_base64 := if include then Some base64Data else None |},
   mkWorld fs (w_now w),
   [IoGetImageInfo; IoOpenCreate path; IoPacking (mimeOf suffix) quality]
   ++ tr ++ [IoRelease; IoStat path]).

(** [imageEditor(imageData)]; [None] when an exception escapes. *)
Definition imageEditor (imageData : string) (st : module_state) (w : world)
  : option EditorResult * module_state * world * list event :=
  let '(pm, tr1) :=
    primaryCrop (d_offset (newOptions st)) (d_size (newOptions st)) imageData in
  match resize st pm with
  | None => (None, st, w, tr1)
  | Some (pm, st, tr2) =>
      let '(result, w, tr3) := persist st w pm in
      (Some result, st, w, tr1 ++ tr2 ++ tr3)
  end.

(** The assignments of [cropImage] to the module-scope [newOptions]. *)
Definition store (st : module_state) (uri : string) (options : CropArgs)
  (o : offset) (s : size) (quality : number) : module_state :=
  let old := newOptions st in
  {| newOptions :=
       {| d_offset := o;
          d_size := s;
          d_quality := Some quality;
          d_displaySize :=
            match a_displaySize options with
            | Some d => Some d
            | None => d_displaySize old
            end;
          d_resizeMode :=
            if truthy_opt_str (a_resizeMode options)
            then a_resizeMode options else d_resizeMode old;
          d_format := requestFormat uri (a_format options);
          d_includeBase64 :=
            if truthy_opt_bool (a_includeBase64 options)
            then a_includeBase64 options else d_includeBase64 old |};
     resizeScaleSize := resizeScaleSize st |}.

(** [ImageEditorModule.cropImage(uri, options)] *)
Definition cropImage (uri : string) (options : CropArgs)
  (st : module_state) (w : world)
  : completion * module_state * world * list event :=
  match validate uri options with
  | Reject warning => (Returned None, st, w, [LogWarn warning])
  | Accept o s quality =>
      let st := store st uri options o s quality in
      let '(buffer, tr0) := getUriBuffer uri in
      match imageEditor buffer st w with
      | (Some fileUri, st, w, tr) => (Returned (Some (res_uri fileUri)), st, w, tr0 ++ tr)
      | (None, st, w, tr) => (Threw, st, w, tr0 ++ tr)
      end
  end.

End Pipeline.
End Shared.

(** ** Variant with request-scoped state (the module that passes
    [newOptions] to [imageEditor] and [TargetRect] as an argument) *)
Module Scoped.

Definition set_resizeMode (o : ImageCropData) (m : option string) : ImageCropData :=
  {| d_offset := d_offset o; d_size := d_size o;
     d_displaySize := d_displaySize o; d_resizeMode := m;
     d_quality := d_quality o; d_format := d_format o;
     d_includeBase64 := d_includeBase64 o |}.

(** [TargetRect(newOptions, resizeScaleSize?)].  [None] stands for an
    exception: [JSON.parse] of an absent display size, or the read of
    [resizeScaleSize.width] in mode [cover] when the argument is absent. *)
Definition TargetRect (newOptions : ImageCropData) (resizeScaleSize : option size)
  : option Region :=
  let resizeMode := d_resizeMode newOptions in
  let cropSize := d_size newOptions in
  match d_displaySize newOptions with
  | None => None
  | Some displaySize =>
      let aspect := width cropSize / height cropSize in
      let targetAspect := width displaySize / height displaySize in
      let targetSize := cropSize in
      let targetRegion := mkRegion 0 0 targetSize in
      if str_is resizeMode "cover" then
        match resizeScaleSize with
        | None => None
        | Some scaled =>
            let targetRegion :=
              if num_le targetAspect aspect then
                let translation := (width scaled - width displaySize) / 2 in
                mkRegion (Math.abs translation) (ry targetRegion) (rsize targetRegion)
              else
                let translation := (height scaled - height displaySize) / 2 in
                mkRegion (rx targetRegion) (Math.abs translation) (rsize targetRegion) in
            Some (mkRegion (rx targetRegion) (ry targetRegion) displaySize)
        end
      else if str_is resizeMode "contain" then
        let targetSize :=
          if num_le targetAspect aspect then
            let w := width displaySize in
            mkSize w (Math.ceil (w / aspect))
          else
            let h := height displaySize in
            mkSize (Math.ceil (h * aspect)) h in
        Some (mkRegion (rx targetRegion) (ry targetRegion) targetSize)
      else if str_is resizeMode "center" then
        let targetSize :=
          if num_gt (height cropSize) (height displaySize) then
            let w := width displaySize in
            mkSize w (Math.ceil (w / aspect))
          else targetSize in
        let targetSize :=
          if num_gt (width cropSize) (width displaySize) then
            let h := height displaySize in
            mkSize (Math.ceil (h * aspect)) h
          else targetSize in
        Some (mkRegion (rx targetRegion) (ry targetRegion) targetSize)
      else Some targetRegion
  end.

Section Pipeline.
Context `{P : Platform}.

(** The head of [imageEditor]: acquisition of the source.  The
    boolean tells whether [openFile] was set. *)
Definition acquire (uri : string) : string * bool * list event :=
  if startsWith uri "data:" then (uri, false, [IoLoadBase uri])
  else if startsWith uri "http" then (uri, false, [IoHttp uri])
  else (uri, true, [IoOpenRead uri]).

(** The block of [imageEditor] guarded by
    [newOptions.displaySize && displaySize.width && displaySize.height]. *)
Definition resize (newOptions : ImageCropData) (editorPM : PixelMap)
  : option (PixelMap * ImageCropData * list event) :=
  match displayGiven (d_displaySize newOptions) with
  | None => Some (editorPM, newOptions, [])
  | Some displaySize =>
      let cropSize := d_size newOptions in
      let aspect := width cropSize / height cropSize in
      let targetAspect := width displaySize / height displaySize in
      let newOptions := if num_eq aspect targetAspect
                        then set_resizeMode newOptions (Some "stretch")
                        else newOptions in
      let xRatio := width displaySize / width cropSize in
      let yRatio := height displaySize / height cropSize in
      if str_is (d_resizeMode newOptions) "stretch" then
        Some (scale editorPM xRatio yRatio, newOptions, [IoScale xRatio yRatio])
      else if str_is (d_resizeMode newOptions) "cover" then
        let resizeScaleSize := displaySize in
        let '(pm, resizeScaleSize, tr) :=
          if num_neq (width displaySize) (width cropSize)
             || num_neq (height displaySize) (height cropSize)
          then
            let ratio := Math.max xRatio yRatio in
            let pm := scale editorPM ratio ratio in
            (pm, getImageInfo pm, [IoScale ratio ratio; IoGetImageInfo])
          else (editorPM, resizeScaleSize, []) in
        match TargetRect newOptions (Some resizeScaleSize) with
        | None => None
        | Some targetRegion =>
            match crop pm targetRegion with
            | Some pm' =>
                Some (pm', newOptions,
                      tr ++ [IoCrop targetRegion; LogInfo msg_crop_ok])
            | None =>
                Some (pm, newOptions,
                      tr ++ [IoCrop targetRegion; LogError msg_crop_failed])
            end
        end
      else
        match TargetRect newOptions None with
        | None => None
        | Some targetRegion =>
            let xRatio := width (rsize targetRegion) / width cropSize in
            let yRatio := height (rsize targetRegion) / height cropSize in
            Some (scale editorPM xRatio yRatio, newOptions, [IoScale xRatio yRatio])
        end
  end.

(** [imageEditor], from the last [getImageInfo] to the assembly of the
    result.  The file is opened inside the [then] callback; a failure
    of [writeSync] is caught and logged, leaving [size] at 0.  The
    reported size is the value returned by [writeSync]. *)
Definition persist (newOptions : ImageCropData) (openFile : bool)
  (w : world) (editorPM : PixelMap)
  : EditorResult * world * list event :=
  let getImageInfo_ := getImageInfo editorPM in
  let suffix := canonicalSuffix (d_format newOptions) in
  let fileName := fileNameOf (w_now w) suffix in
  let path := (cacheDir ++ "/" ++ fileName)%string in
  let quality := packQuality (d_quality newOptions) in
  let include := truthy_opt_bool (d_includeBase64 newOptions) in
  let '(fs, size_, base64Data, tr) :=
    match packing editorPM (mimeOf suffix) quality with
    | Some data =>
        let fs := openCreate (w_fs w) path in
        let '(fs, size_, trw) :=
          match writeSync fs path data with
          | Some (fs', n) => (fs', n, [IoWrite path (List.length data); IoClose])
          | None => (fs, 0%Z, [LogError msg_write_failed; IoClose])
          end in
        (fs, size_,
         if include then encodeToStringSync data else "",
         [IoOpenCreate path] ++ trw ++ (if include then [IoBase64] else []))
    | None => (w_fs w, 0%Z, "", [LogError msg_packing_failed])
    end in
  ({| res_uri := ("file://" ++ path)%string;
      res_path := path;
      res_name := fileName;
      res_width := width getImageInfo_;
      res_height := height getImageInfo_;
      res_size := size_;
      res_type := mimeOf suffix;
      res_base64 := if include then Some base64Data else None |},
   mkWorld fs (w_now w),
   [IoGetImageInfo; IoPacking (mimeOf suffix) quality]
   ++ tr ++ (if openFile then [IoClose] else []) ++ [IoRelease]).

(** [imageEditor(newOptions, uri, uiContext)]; [None] when an exception
    escapes.  The request object after the call is returned too: the
    function writes [resizeMode] into it. *)
Definition imageEditor (newOptions : ImageCropData) (uri : string) (w : world)
  : option EditorResult * ImageCropData * world * list event :=
  let '(imageData, openFile, tr0) := acquire uri in
  let '(pm, tr1) :=
    primaryCrop (d_offset newOptions) (d_size newOptions) imageData in
  match resize newOptions pm with
  | None => (None, newOptions, w, tr0 ++ tr1)
  | Some (pm, newOptions, tr2) =>
      let '(result, w, tr3) := persist newOptions openFile w pm in
      (Some result, newOptions, w, tr0 ++ tr1 ++ tr2 ++ tr3)
  end.

(** [let newOptions = options] followed by the assignments of
    [cropImage]: only [quality] and [format] receive new values. *)
Definition request (uri : string) (options : CropArgs)
  (o : offset) (s : size) (quality : number) : ImageCropData :=
  {| d_offset := o;
     d_size := s;
     d_quality := Some quality;
     d_displaySize := a_displaySize options;
     d_resizeMode := a_resizeMode options;
     d_format := requestFormat uri (a_format options);
     d_includeBase64 := a_includeBase64 options |}.

(** [ImageEditorModule.cropImage(uri, options)] *)
Definition cropImage (uri : string) (options : CropArgs) (w : world)
  : completion * world * list event :=
  match validate uri options with
  | Reject warning => (Returned None, w, [LogWarn warning])
  | Accept o s quality =>
      let newOptions := request uri options o s quality in
      match imageEditor newOptions uri w with
      | (Some fileUri, _, w, tr) => (Returned (Some (res_uri fileUri)), w, tr)
      | (None, _, w, tr) => (Threw, w, tr)
      end
  end.

End Pipeline.
End Scoped.

(** ** A reference platform

    An instance of [Platform] used to run the pipeline on concrete
    requests: every source decodes to an image of the given size, a pixel
    map is its size, [crop] succeeds exactly on regions inside the image,
    [scale] multiplies the dimensions, the packer writes one byte per pixel
    column followed by one byte per pixel row, and the file system is a
    list of named files where [writeSync] writes at position 0 of a file
    that [openSync] does not truncate. *)
Module Sim.

Definition inside (r : Region) (s : size) : bool :=
  Qle_bool 0 (rx r) && Qle_bool 0 (ry r)
  && Qle_bool (rx r + width (rsize r)) (width s)
  && Qle_bool (ry r + height (rsize r)) (height s).

Definition pixels (n : number) : nat := Z.to_nat (Qceiling n).

Definition pack (pm : size) : bytes :=
  repeat Byte.x01 (pixels (width pm)) ++ repeat Byte.x02 (pixels (height pm)).

Definition files := list (string * bytes).

Fixpoint read (fs : files) (p : string) : option bytes :=
  match fs with
  | [] => None
  | (q, b) :: rest => if String.eqb q p then Some b else read rest p
  end.

Fixpoint put (fs : files) (p : string) (b : bytes) : files :=
  match fs with
  | [] => [(p, b)]
  | (q, old) :: rest =>
      if String.eqb q p then (q, b) :: rest else (q, old) :: put rest p b
  end.

Definition content (fs : files) (p : string) : bytes :=
  match read fs p with Some b => b | None => [] end.

Definition platform (source : size) : Platform :=
  {| PixelMap := size;
     FS := files;
     createPixelMap := fun _ => source;
     getImageInfo := fun pm => pm;
     crop := fun pm r => if inside r pm then Some (rsize r) else None;
     scale := fun pm a b => mkSize (Qred (width pm * a)) (Qred (height pm * b));
     packing := fun pm _ _ => Some (pack pm);
     encodeToStringSync := fun b => string_of_list_byte b;
     cacheDir := "/cache";
     openCreate := fun fs p =>
       match read fs p with Some _ => fs | None => put fs p [] end;
     writeSync := fun fs p data =>
       Some (put fs p (data ++ skipn (List.length data) (content fs p)),
             Z.of_nat (List.length data));
     statSize := fun fs p => Z.of_nat (List.length (content fs p)) |}.

End Sim.

(** ** JavaScript numbers in double precision

    A [number] of the engine is an IEEE 754 binary64 value; the
    operations are those of the standard, rounding to nearest with ties
    to even. *)
Module Ieee.

Definition prec : Z := 53.
Definition emax : Z := 1024.

Definition double := spec_float.

Definition of_Z (z : Z) : double := binary_normalize prec emax z 0 false.

Definition zero : double := S754_zero false.
Definition two : double := of_Z 2.

(** [a / b], [a * b], [a + b], [a - b] *)
Definition div (a b : double) : double := SFdiv prec emax a b.
Definition mul (a b : double) : double := SFmul prec emax a b.
Definition add (a b : double) : double := SFadd prec emax a b.
Definition sub (a b : double) : double := SFsub prec emax a b.

(** [a === b], [a !== b], [a < b], [a <= b], [a > b] *)
Definition eqb (a b : double) : bool := SFeqb a b.
Definition neqb (a b : double) : bool := negb (SFeqb a b).
Definition ltb (a b : double) : bool := SFltb a b.
Definition leb (a b : double) : bool := SFleb a b.
Definition gtb (a b : double) : bool := SFltb b a.

(** Truthiness of a number: false for 0, -0 and NaN. *)
Definition truthy (a : double) : bool :=
  match a with
  | S754_zero _ | S754_nan => false
  | _ => true
  end.

(** [Math.abs], [Math.max], [Math.ceil], [Math.floor] *)
Definition abs (a : double) : double := SFabs a.

Definition max (a b : double) : double :=
  match a, b with
  | S754_nan, _ | _, S754_nan => S754_nan
  | _, _ =>
      if SFltb a b then b
      else if SFltb b a then a
      else match a with S754_zero true => b | _ => a end
  end.

Definition ceil (a : double) : double :=
  match a with
  | S754_finite s m (Zneg n) =>
      let q := (Zpos m / 2 ^ Zpos n)%Z in
      let r := (Zpos m mod 2 ^ Zpos n)%Z in
      if s then
        if (q =? 0)%Z then S754_zero true else binary_normalize prec emax (- q) 0 true
      else binary_normalize prec emax (if (r =? 0)%Z then q else q + 1) 0 false
  | _ => a
  end.

Definition floor (a : double) : double :=
  match a with
  | S754_finite s m (Zneg n) =>
      let q := (Zpos m / 2 ^ Zpos n)%Z in
      let r := (Zpos m mod 2 ^ Zpos n)%Z in
      if s then binary_normalize prec emax (- (if (r =? 0)%Z then q else q + 1)) 0 true
      else binary_normalize prec emax q 0 false
  | _ => a
  end.

(** [JSON.parse(JSON.stringify(n))]: a finite number comes back as it
    is (negative zero as zero); NaN and the infinities become [null],
    which the arithmetic of the callers reads as 0. *)
Definition json (a : double) : double :=
  match a with
  | S754_finite _ _ _ => a
  | _ => zero
  end.

End Ieee.

(** ** The crop and resize stage in double precision

    The part of both variants between the guards of [cropImage] and the
    last [getImageInfo] of [imageEditor], with every number an IEEE
    double.  [scale] and [getImageInfo] may fail; their promise is
    awaited without a [catch], so a failure rejects the call. *)
Module Double.

Record size := mkSize { width : Ieee.double; height : Ieee.double }.
Record offset := mkOffset { x : Ieee.double; y : Ieee.double }.
Record Region := mkRegion { rx : Ieee.double; ry : Ieee.double; rsize : size }.
Record offset_arg := mkOffsetArg { arg_x : option Ieee.double; arg_y : option Ieee.double }.

Record CropArgs := mkArgs {
  a_offset : option offset_arg;
  a_size : option size;
  a_displaySize : option size;
  a_resizeMode : option string;
  a_quality : option Ieee.double;
  a_format : option string;
  a_includeBase64 : option bool
}.

Record ImageCropData := mkData {
  d_offset : offset;
  d_size : size;
  d_displaySize : option size;
  d_resizeMode : option string;
  d_quality : option Ieee.double;
  d_format : option string;
  d_includeBase64 : option bool
}.

(** [JSON.parse(JSON.stringify(s))] of a size *)
Definition json (s : size) : size :=
  mkSize (Ieee.json (width s)) (Ieee.json (height s)).

(** [image.PixelMap] *)
Class Pixels := {
  PixelMap : Type;
  getImageInfo : PixelMap -> option size;
  crop : PixelMap -> Region -> option PixelMap;
  scale : PixelMap -> Ieee.double -> Ieee.double -> option PixelMap
}.

(** [let quality = 90; if (options.quality) quality = Math.floor(options.quality * 100)] *)
Definition qualityPercent (q : option Ieee.double) : Ieee.double :=
  match q with
  | Some v => if Ieee.truthy v then Ieee.floor (Ieee.mul v (Ieee.of_Z 100))
              else Ieee.of_Z 90
  | None => Ieee.of_Z 90
  end.

Inductive checked :=
| Reject (warning : string)
| Accept (o : offset) (s : size) (quality : Ieee.double).

(** The three guards at the head of [cropImage], in source order. *)
Definition validate (uri : string) (options : CropArgs) : checked :=
  let quality := qualityPercent (a_quality options) in
  if negb (truthy_str uri) then Reject msg_uri
  else
    match a_offset options, a_size options with
    | Some o, Some s =>
        match arg_x o, arg_y o with
        | Some ox, Some oy =>
            if negb (Ieee.truthy (width s)) || negb (Ieee.truthy (height s))
            then Reject msg_offset_size
            else if Ieee.gtb quality (Ieee.of_Z 100) || Ieee.ltb quality Ieee.zero
                 then Reject msg_quality
                 else Accept (mkOffset ox oy) s quality
        | _, _ => Reject msg_offset_size
        end
    | _, _ => Reject msg_offset_size
    end.

(** [displaySize && displaySize.width && displaySize.height] *)
Definition displayGiven (d : option size) : option size :=
  match d with
  | Some ds => if Ieee.truthy (width ds) && Ieee.truthy (height ds) then Some ds else None
  | None => None
  end.

(** The crop region of the request and the primary crop; a failed crop
    is caught and the pipeline goes on with the uncropped pixel map. *)
Definition primaryCrop `{Pixels} (o : offset) (s : size) (editorPM : PixelMap)
  : PixelMap :=
  let region := mkRegion (x o) (y o) (mkSize (width s) (height s)) in
  match crop editorPM region with
  | Some pm => pm
  | None => editorPM
  end.

(** *** Variant with module-scope request state *)
Module Shared.

Record module_state := mkState {
  newOptions : ImageCropData;
  resizeScaleSize : size
}.

Definition initial : module_state :=
  {| newOptions :=
       {| d_offset := mkOffset Ieee.zero Ieee.zero;
          d_size := mkSize Ieee.zero Ieee.zero;
          d_displaySize := None;
          d_resizeMode := Some "cover";
          d_quality := None;
          d_format := None;
          d_includeBase64 := Some false |};
     resizeScaleSize := mkSize Ieee.zero Ieee.zero |}.

Definition set_resizeMode (st : module_state) (m : option string) : module_state :=
  let o := newOptions st in
  {| newOptions :=
       {| d_offset := d_offset o; d_size := d_size o;
          d_displaySize := d_displaySize o; d_resizeMode := m;
          d_quality := d_quality o; d_format := d_format o;
          d_includeBase64 := d_includeBase64 o |};
     resizeScaleSize := resizeScaleSize st |}.

Definition set_resizeScaleSize (st : module_state) (s : size) : module_state :=
  {| newOptions := newOptions st; resizeScaleSize := s |}.

(** The assignments of [cropImage] to the module-scope [newOptions]. *)
Definition store (st : module_state) (uri : string) (options : CropArgs)
  (o : offset) (s : size) (quality : Ieee.double) : module_state :=
  let old := newOptions st in
  {| newOptions :=
       {| d_offset := o;
          d_size := s;
          d_quality := Some quality;
          d_displaySize :=
            match a_displaySize options with
            | Some d => Some d
            | None => d_displaySize old
            end;
          d_resizeMode :=
            if truthy_opt_str (a_resizeMode options)
            then a_resizeMode options else d_resizeMode old;
          d_format := requestFormat uri (a_format options);
          d_includeBase64 :=
            if truthy_opt_bool (a_includeBase64 options)
            then a_includeBase64 options else d_includeBase64 old |};
     resizeScaleSize := resizeScaleSize st |}.

(** [TargetRect()]; [None] stands for the exception of [JSON.parse] when
    no display size is stored.  The last assignment
    [targetRegion.size = targetSize] runs for every mode. *)
Definition TargetRect (st : module_state) : option Region :=
  let resizeMode := d_resizeMode (newOptions st) in
  let cropSize := d_size (newOptions st) in
  match d_displaySize (newOptions st) with
  | None => None
  | Some stored =>
      let displaySize := json stored in
      let aspect := Ieee.div (width cropSize) (height cropSize) in
      let targetAspect := Ieee.div (width displaySize) (height displaySize) in
      let targetSize := json cropSize in
      let targetRegion := mkRegion Ieee.zero Ieee.zero targetSize in
      let '(targetRegion, targetSize) :=
        if str_is resizeMode "cover" then
          let targetRegion :=
            if Ieee.leb targetAspect aspect then
              let translation :=
                Ieee.div (Ieee.sub (width (resizeScaleSize st)) (width displaySize))
                         Ieee.two in
              mkRegion (Ieee.abs translation) (ry targetRegion) (rsize targetRegion)
            else
              let translation :=
                Ieee.div (Ieee.sub (height (resizeScaleSize st)) (height displaySize))
                         Ieee.two in
              mkRegion (rx targetRegion) (Ieee.abs translation) (rsize targetRegion) in
          (mkRegion (rx targetRegion) (ry targetRegion) displaySize, targetSize)
        else if str_is resizeMode "contain" then
          if Ieee.leb targetAspect aspect then
            let w := width displaySize in
            (targetRegion, mkSize w (Ieee.ceil (Ieee.div w aspect)))
          else
            let h := height displaySize in
            (targetRegion, mkSize (Ieee.ceil (Ieee.mul h aspect)) h)
        else if str_is resizeMode "center" then
          let targetSize :=
            if Ieee.gtb (height cropSize) (height displaySize) then
              let w := width displaySize in
              mkSize w (Ieee.ceil (Ieee.div w aspect))
            else targetSize in
          let targetSize :=
            if Ieee.gtb (width cropSize) (width displaySize) then
              let h := height displaySize in
              mkSize (Ieee.ceil (Ieee.mul h aspect)) h
            else targetSize in
          (targetRegion, targetSize)
        else (targetRegion, targetSize) in
      Some (mkRegion (rx targetRegion) (ry targetRegion) targetSize)
  end.

Section Pipeline.
Context `{P : Pixels}.

(** [imageEditor], the block guarded by
    [newOptions.displaySize && displaySize.width && displaySize.height];
    [None] is a rejected promise. *)
Definition resize (st : module_state) (editorPM : PixelMap)
  : option (PixelMap * module_state) :=
  match displayGiven (d_displaySize (newOptions st)) with
  | None => Some (editorPM, st)
  | Some stored =>
      let cropSize := d_size (newOptions st) in
      let displaySize := json stored in
      let aspect := Ieee.div (width cropSize) (height cropSize) in
      let targetAspect := Ieee.div (width displaySize) (height displaySize) in
      let st := if Ieee.eqb aspect targetAspect
                then set_resizeMode st (Some "stretch") else st in
      let xRatio := Ieee.div (width displaySize) (width cropSize) in
      let yRatio := Ieee.div (height displaySize) (height cropSize) in
      if str_is (d_resizeMode (newOptions st)) "stretch" then
        match scale editorPM xRatio yRatio with
        | Some pm => Some (pm, st)
        | None => None
        end
      else if str_is (d_resizeMode (newOptions st)) "cover" then
        let scaled :=
          if Ieee.neqb (width displaySize) (width cropSize)
             || Ieee.neqb (height displaySize) (height cropSize)
          then
            let ratio := Ieee.max xRatio yRatio in
            match scale editorPM ratio ratio with
            | Some pm =>
                match getImageInfo pm with
                | Some info => Some (pm, set_resizeScaleSize st info)
                | None => None
                end
            | None => None
            end
          else Some (editorPM, st) in
        match scaled with
        | None => None
        | Some (pm, st) =>
            match TargetRect st with
            | None => None
            | Some targetRegion =>
                match crop pm targetRegion with
                | Some pm' => Some (pm', st)
                | None => Some (pm, st)
                end
            end
        end
      else
        match TargetRect st with
        | None => None
        | Some targetRegion =>
            let xRatio := Ieee.div (width (rsize targetRegion)) (width cropSize) in
            let yRatio := Ieee.div (height (rsize targetRegion)) (height cropSize) in
            match scale editorPM xRatio yRatio with
            | Some pm => Some (pm, st)
            | None => None
            end
        end
  end.

(** [imageEditor] from the decoded pixel map to the last [getImageInfo],
    whose size becomes [width] and [height] of the result. *)
Definition imageEditor (st : module_state) (editorPM : PixelMap)
  : option (size * module_state) :=
  let pm := primaryCrop (d_offset (newOptions st)) (d_size (newOptions st)) editorPM in
  match resize st pm with
  | None => None
  | Some (pm, st) =>
      match getImageInfo pm with
      | Some info => Some (info, st)
      | None => None
      end
  end.

End Pipeline.
End Shared.

(** *** Variant with request-scoped state *)
Module Scoped.

Definition set_resizeMode (o : ImageCropData) (m : option string) : ImageCropData :=
  {| d_offset := d_offset o; d_size := d_size o;
     d_displaySize := d_displaySize o; d_resizeMode := m;
     d_quality := d_quality o; d_format := d_format o;
     d_includeBase64 := d_includeBase64 o |}.

(** [let newOptions = options] followed by the assignments of [cropImage]. *)
Definition request (uri : string) (options : CropArgs)
  (o : offset) (s : size) (quality : Ieee.double) : ImageCropData :=
  {| d_offset := o;
     d_size := s;
     d_quality := Some quality;
     d_displaySize := a_displaySize options;
     d_resizeMode := a_resizeMode options;
     d_format := requestFormat uri (a_format options);
     d_includeBase64 := a_includeBase64 options |}.

(** [TargetRect(newOptions, resizeScaleSize?)]; [None] stands for an
    exception: [JSON.parse] of an absent display size, or the read of
    [resizeScaleSize.width] in mode [cover] when the argument is absent. *)
Definition TargetRect (newOptions : ImageCropData) (resizeScaleSize : option size)
  : option Region :=
  let resizeMode := d_resizeMode newOptions in
  let cropSize := d_size newOptions in
  match d_displaySize newOptions with
  | None => None
  | Some stored =>
      let displaySize := json stored in
      let aspect := Ieee.div (width cropSize) (height cropSize) in
      let targetAspect := Ieee.div (width displaySize) (height displaySize) in
      let targetSize := json cropSize in
      let targetRegion := mkRegion Ieee.zero Ieee.zero targetSize in
      if str_is resizeMode "cover" then
        match resizeScaleSize with
        | None => None
        | Some scaled =>
            let targetRegion :=
              if Ieee.leb targetAspect aspect then
                let translation :=
                  Ieee.div (Ieee.sub (width scaled) (width displaySize)) Ieee.two in
                mkRegion (Ieee.abs translation) (ry targetRegion) (rsize targetRegion)
              else
                let translation :=
                  Ieee.div (Ieee.sub (height scaled) (height displaySize)) Ieee.two in
                mkRegion (rx targetRegion) (Ieee.abs translation) (rsize targetRegion) in
            Some (mkRegion (rx targetRegion) (ry targetRegion) displaySize)
        end
      else if str_is resizeMode "contain" then
        let targetSize :=
          if Ieee.leb targetAspect aspect then
            let w := width displaySize in
            mkSize w (Ieee.ceil (Ieee.div w aspect))
          else
            let h := height displaySize in
            mkSize (Ieee.ceil (Ieee.mul h aspect)) h in
        Some (mkRegion (rx targetRegion) (ry targetRegion) targetSize)
      else if str_is resizeMode "center" then
        let targetSize :=
          if Ieee.gtb (height cropSize) (height displaySize) then
            let w := width displaySize in
            mkSize w (Ieee.ceil (Ieee.div w aspect))
          else targetSize in
        let targetSize :=
          if Ieee.gtb (width cropSize) (width displaySize) then
            let h := height displaySize in
            mkSize (Ieee.ceil (Ieee.mul h aspect)) h
          else targetSize in
        Some (mkRegion (rx targetRegion) (ry targetRegion) targetSize)
      else Some targetRegion
  end.

Section Pipeline.
Context `{P : Pixels}.

Definition resize (newOptions : ImageCropData) (editorPM : PixelMap)
  : option (PixelMap * ImageCropData) :=
  match displayGiven (d_displaySize newOptions) with
  | None => Some (editorPM, newOptions)
  | Some stored =>
      let cropSize := d_size newOptions in
      let displaySize := json stored in
      let aspect := Ieee.div (width cropSize) (height cropSize) in
      let targetAspect := Ieee.div (width displaySize) (height displaySize) in
      let newOptions := if Ieee.eqb aspect targetAspect
                        then set_resizeMode newOptions (Some "stretch")
                        else newOptions in
      let xRatio := Ieee.div (width displaySize) (width cropSize) in
      let yRatio := Ieee.div (height displaySize) (height cropSize) in
      if str_is (d_resizeMode newOptions) "stretch" then
        match scale editorPM xRatio yRatio with
        | Some pm => Some (pm, newOptions)
        | None => None
        end
      else if str_is (d_resizeMode newOptions) "cover" then
        let resizeScaleSize := displaySize in
        let scaled :=
          if Ieee.neqb (width displaySize) (width cropSize)
             || Ieee.neqb (height displaySize) (height cropSize)
          then
            let ratio := Ieee.max xRatio yRatio in
            match scale editorPM ratio ratio with
            | Some pm =>
                match getImageInfo pm with
                | Some info => Some (pm, info)
                | None => None
                end
            | None => None
            end
          else Some (editorPM, resizeScaleSize) in
        match scaled with
        | None => None
        | Some (pm, resizeScaleSize) =>
            match TargetRect newOptions (Some resizeScaleSize) with
            | None => None
            | Some targetRegion =>
                match crop pm targetRegion with
                | Some pm' => Some (pm', newOptions)
                | None => Some (pm, newOptions)
                end
            end
        end
      else
        match TargetRect newOptions None with
        | None => None
        | Some targetRegion =>
            let xRatio := Ieee.div (width (rsize targetRegion)) (width cropSize) in
            let yRatio := Ieee.div (height (rsize targetRegion)) (height cropSize) in
            match scale editorPM xRatio yRatio with
            | Some pm => Some (pm, newOptions)
            | None => None
            end
        end
  end.

Definition imageEditor (newOptions : ImageCropData) (editorPM : PixelMap)
  : option (size * ImageCropData) :=
  let pm := primaryCrop (d_offset newOptions) (d_size newOptions) editorPM in
  match resize newOptions pm with
  | None => None
  | Some (pm, newOptions) =>
      match getImageInfo pm with
      | Some info => Some (info, newOptions)
      | None => None
      end
  end.

End Pipeline.
End Scoped.

(** *** A reference platform: a pixel map is its size, cropping yields
    the size of the region, scaling multiplies each dimension and
    rounds it up to whole pixels. *)
Module Sim.

Definition platform : Pixels :=
  {| PixelMap := size;
     getImageInfo := fun pm => Some pm;
     crop := fun pm r =>
       if Ieee.leb (Ieee.add (rx r) (width (rsize r))) (width pm)
          && Ieee.leb (Ieee.add (ry r) (height (rsize r))) (height pm)
       then Some (rsize r) else None;
     scale := fun pm a b =>
       Some (mkSize (Ieee.ceil (Ieee.mul (width pm) a))
                    (Ieee.ceil (Ieee.mul (height pm) b))) |}.

End Sim.

End Double.

(** * Vocabulary of the properties *)

(** ** Components of the tuples returned by the pipeline *)

Definition proj4_1 {A B C D : Type} (r : A * B * C * D) : A := fst (fst (fst r)).
Definition proj4_2 {A B C D : Type} (r : A * B * C * D) : B := snd (fst (fst r)).
Definition proj4_3 {A B C D : Type} (r : A * B * C * D) : C := snd (fst r).
Definition proj4_4 {A B C D : Type} (r : A * B * C * D) : D := snd r.
Definition proj3_1 {A B C : Type} (r : A * B * C) : A := fst (fst r).
Definition proj3_2 {A B C : Type} (r : A * B * C) : B := snd (fst r).
Definition proj3_3 {A B C : Type} (r : A * B * C) : C := snd r.

(** The region of the primary crop, built from the stored offset and size. *)
Definition cropRegion (o : offset) (s : size) : Region :=
  mkRegion (x o) (y o) (mkSize (width s) (height s)).

(** ** Assumptions on the platform

    [fits r s]: the region [r] lies inside an image of size [s]. *)
Definition fits (r : Region) (s : size) : Prop :=
  0 <= rx r /\ 0 <= ry r /\
  rx r + width (rsize r) <= width s /\ ry r + height (rsize r) <= height s.

(** A platform is lawful when cropping to a region inside the image
    succeeds and yields an image of the size of the region, and scaling by
    the factors (1, 1) keeps the size of the image. *)
Class PlatformLaws (P : Platform) : Prop := {
  crop_inside : forall (pm : PixelMap) (r : Region),
    fits r (getImageInfo pm) ->
    exists pm', crop pm r = Some pm' /\ size_eq (getImageInfo pm') (rsize r);
  scale_unit : forall (pm : PixelMap) (a b : number),
    a == 1 -> b == 1 -> size_eq (getImageInfo (scale pm a b)) (getImageInfo pm)
}.

(** A platform scales exactly when the scaled image has the dimensions of
    the image multiplied by the factors. *)
Class ExactScale (P : Platform) : Prop := {
  scale_exact : forall (pm : PixelMap) (a b : number),
    size_eq (getImageInfo (scale pm a b))
            (mkSize (width (getImageInfo pm) * a) (height (getImageInfo pm) * b))
}.

(** ** Statements about requests and outcomes *)

(** The supplied quality, mapped to a percentage, falls outside [0, 100]. *)
Definition quality_out_of_range (q : option number) : Prop :=
  match q with
  | Some v => Math.floor (v * 100) < 0 \/ 100 < Math.floor (v * 100)
  | None => False
  end.

(** [offset] or [size] is missing, or [offset] lacks one of its keys. *)
Definition lacks_offset_or_size (options : CropArgs) : Prop :=
  match a_offset options, a_size options with
  | Some o, Some _ => arg_x o = None \/ arg_y o = None
  | _, _ => True
  end.

(** [size] is present and one of its dimensions satisfies [p]. *)
Definition size_with (p : number -> Prop) (options : CropArgs) : Prop :=
  exists s, a_size options = Some s /\ (p (width s) \/ p (height s)).

(** A request is invalid, with the test [p] on the dimensions of [size]. *)
Definition invalid_request (p : number -> Prop) (uri : string) (options : CropArgs)
  : Prop :=
  uri = "" \/ lacks_offset_or_size options \/ size_with p options \/
  quality_out_of_range (a_quality options).

(** An outcome that hands a value to the caller.  [Returned None] is the
    promise fulfilled with [undefined] by a bare [return]; [Threw] is an
    exception. *)
Definition explicit_outcome (c : completion) : Prop :=
  exists v, c = Returned (Some v).

(** The qualities handed to the packer during a call. *)
Fixpoint packings (tr : list event) : list number :=
  match tr with
  | [] => []
  | IoPacking _ q :: rest => q :: packings rest
  | _ :: rest => packings rest
  end.

(** ** Sample requests and states *)


Definition full_args (c : size) : CropArgs :=
  mkArgs (Some (mkOffsetArg (Some 0) (Some 0))) (Some c) None None None None None.

Definition display_args (c : size) (d : option size) : CropArgs :=
  mkArgs (Some (mkOffsetArg (Some 0) (Some 0))) (Some c) d None None None None.

Definition quality_args (q : option number) : CropArgs :=
  mkArgs (Some (mkOffsetArg (Some 0) (Some 0))) (Some (mkSize 10 10))
         None None q None None.

Definition base64_args : CropArgs :=
  mkArgs (Some (mkOffsetArg (Some 0) (Some 0))) (Some (mkSize 2 3))
         None None None None (Some true).

Definition outside_args : CropArgs :=
  mkArgs (Some (mkOffsetArg (Some 30) (Some 30))) (Some (mkSize 20 20))
         None None None None None.

Definition cover_args : CropArgs :=
  mkArgs (Some (mkOffsetArg (Some 0) (Some 0))) (Some (mkSize 100 200))
         (Some (mkSize 100 100)) (Some "cover") None None None.

Definition first_args : CropArgs :=
  mkArgs (Some (mkOffsetArg (Some 0) (Some 0))) (Some (mkSize 20 10))
         (Some (mkSize 10 10)) (Some "contain") None None None.

Definition second_args : CropArgs :=
  mkArgs (Some (mkOffsetArg (Some 0) (Some 0))) (Some (mkSize 20 10))
         None None None None None.

(** ** Vocabulary of the further properties *)

(** Two requests agree on every field but [resizeMode]. *)
Definition same_but_mode (a b : ImageCropData) : Prop :=
  d_offset a = d_offset b /\ d_size a = d_size b /\
  d_displaySize a = d_displaySize b /\ d_quality a = d_quality b /\
  d_format a = d_format b /\ d_includeBase64 a = d_includeBase64 b.

(** The events a resize stage can leave: scaling, measuring, cropping and
    the log entries of the crop. *)
Definition pixel_event (e : event) : bool :=
  match e with
  | IoScale _ _ | IoGetImageInfo | IoCrop _ | LogInfo _ | LogError _ => true
  | _ => false
  end.

(** The uri under which a call stores its file. *)
Definition fileUriOf `{Platform} (now : Z) (fmt : option string) : string :=
  ("file://" ++ cacheDir ++ "/" ++ fileNameOf now (canonicalSuffix fmt))%string.

(** A string without a dot. *)
Fixpoint no_dot (s : string) : bool :=
  match s with
  | EmptyString => true
  | String c rest => negb (Ascii.eqb c "."%char) && no_dot rest
  end.

Definition quality_101_args : CropArgs := quality_args (Some (201 # 200)).

(** A call of [cropImage] and the time at which it runs. *)
Record call := mkCall { c_uri : string; c_options : CropArgs; c_now : Z }.

(** A sequence of calls on the variant with module-scope state: each call
    starts from the module state and the file system left by the previous
    one. *)
Fixpoint calls `{Platform} (cs : list call) (st : Shared.module_state) (fs : FS)
  : Shared.module_state * FS :=
  match cs with
  | [] => (st, fs)
  | c :: rest =>
      let r := Shared.cropImage (c_uri c) (c_options c) st (mkWorld fs (c_now c)) in
      calls rest (proj4_2 r) (w_fs (proj4_3 r))
  end.

(** What a resize stage of the variant with module-scope state yields,
    leaving [resizeScaleSize] aside. *)
Definition resized `{Platform}
  (r : option (PixelMap * Shared.module_state * list event))
  : option (PixelMap * ImageCropData * list event) :=
  match r with
  | Some (pm, st, tr) => Some (pm, Shared.newOptions st, tr)
  | None => None
  end.

(** The reference platform with a packer that always fails. *)
Definition unpackable (source : size) : Platform :=
  let P := Sim.platform source in
  {| PixelMap := @PixelMap P;
     FS := @FS P;
     createPixelMap := @createPixelMap P;
     getImageInfo := @getImageInfo P;
     crop := @crop P;
     scale := @scale P;
     packing := fun _ _ _ => None;
     encodeToStringSync := @encodeToStringSync P;
     cacheDir := @cacheDir P;
     openCreate := @openCreate P;
     writeSync := @writeSync P;
     statSize := @statSize P |}.

(** The path under which a call stores its file. *)
Definition filePathOf `{Platform} (now : Z) (fmt : option string) : string :=
  (cacheDir ++ "/" ++ fileNameOf now (canonicalSuffix fmt))%string.



Definition mode_args (c d : size) (mode : string) : CropArgs :=
  mkArgs (Some (mkOffsetArg (Some 0) (Some 0))) (Some c) (Some d) (Some mode)
         None None None.

(** The reference platform with a [writeSync] that always throws. *)
Definition unwritable (source : size) : Platform :=
  let P := Sim.platform source in
  {| PixelMap := @PixelMap P;
     FS := @FS P;
     createPixelMap := @createPixelMap P;
     getImageInfo := @getImageInfo P;
     crop := @crop P;
     scale := @scale P;
     packing := @packing P;
     encodeToStringSync := @encodeToStringSync P;
     cacheDir := @cacheDir P;
     openCreate := @openCreate P;
     writeSync := fun _ _ _ => None;
     statSize := @statSize P |}.

(** ** Vocabulary of the double-precision properties *)

(** The rational number a finite double stands for. *)
Definition val (x : spec_float) : Q :=
  match x with
  | S754_finite s m e =>
      ((if s then - inject_Z (Zpos m) else inject_Z (Zpos m)) * 2 ^ e)%Q
  | _ => 0%Q
  end.

(** The position of a rational number with respect to the truncated
    mantissa of a shift record: on it, below, at or above the midpoint of
    the next unit. *)
Definition situated (mrs : shr_record) (y : Q) : Prop :=
  let m := inject_Z (shr_m mrs) in
  match shr_r mrs, shr_s mrs with
  | false, false => y == m
  | false, true => m < y /\ y < m + (1 # 2)
  | true, false => y == m + (1 # 2)
  | true, true => m + (1 # 2) < y /\ y < m + 1
  end%Q.

(** The exponent function of binary64. *)
Definition fexp (e : Z) : Z := SpecFloat.fexp Ieee.prec Ieee.emax e.

(** A positive finite double in canonical form. *)
Definition posfloat (f : spec_float) : Prop :=
  match f with
  | S754_finite false m e => bounded Ieee.prec Ieee.emax m e = true
  | _ => False
  end.

(** The results of an operation on positive doubles: zero, a positive
    finite double or infinity. *)
Definition good (R : spec_float) : Prop :=
  match R with
  | S754_zero false | S754_infinity false => True
  | S754_finite false m e => bounded Ieee.prec Ieee.emax m e = true
  | _ => False
  end.


(** Sample requests in double precision: a size with whole-number
    dimensions, a stored request, and the arguments of a call that gives
    only offset (0, 0), size and display size. *)
Definition whole_size (w h : Z) : Double.size :=
  Double.mkSize (Ieee.of_Z w) (Ieee.of_Z h).


Definition double_args (c : Double.size) (d : option Double.size) : Double.CropArgs :=
  Double.mkArgs (Some (Double.mkOffsetArg (Some Ieee.zero) (Some Ieee.zero)))
                (Some c) d None None None None.

(** * Properties *)

(** ** Tests on numbers *)

Lemma num_eq_true (a b : number) : num_eq a b = true <-> a == b.
Proof. unfold num_eq. apply Qeq_bool_iff. Qed.

Lemma num_eq_false (a b : number) : num_eq a b = false <-> ~ a == b.
Proof.
  rewrite <- num_eq_true. destruct (num_eq a b); split; intro H; easy.
Qed.

Lemma num_le_true (a b : number) : num_le a b = true <-> a <= b.
Proof. unfold num_le. apply Qle_bool_iff. Qed.

Lemma num_le_false (a b : number) : num_le a b = false <-> b < a.
Proof.
  unfold num_le. split; intro H.
  - apply Qnot_le_lt. intro L. apply Qle_bool_iff in L. congruence.
  - destruct (Qle_bool a b) eqn:E; [|reflexivity].
    apply Qle_bool_iff in E. exfalso. exact (Qlt_not_le _ _ H E).
Qed.

Lemma num_gt_true (a b : number) : num_gt a b = true <-> b < a.
Proof.
  unfold num_gt. rewrite negb_true_iff. apply (num_le_false a b).
Qed.

Lemma num_lt_true (a b : number) : num_lt a b = true <-> a < b.
Proof.
  unfold num_lt. rewrite negb_true_iff. apply (num_le_false b a).
Qed.

Lemma truthy_num_true (n : number) : truthy_num n = true <-> ~ n == 0.
Proof.
  unfold truthy_num. rewrite negb_true_iff. apply (num_eq_false n 0).
Qed.

Lemma truthy_num_pos (n : number) : 0 < n -> truthy_num n = true.
Proof.
  intro H. apply truthy_num_true. intro E. rewrite E in H.
  exact (Qlt_irrefl 0 H).
Qed.

Lemma displayGiven_pos (d : size) :
  0 < width d -> 0 < height d -> displayGiven (Some d) = Some d.
Proof.
  intros Hw Hh. unfold displayGiven.
  now rewrite (truthy_num_pos _ Hw), (truthy_num_pos _ Hh).
Qed.

Lemma displayGiven_Some (o : option size) (d : size) :
  displayGiven o = Some d -> o = Some d.
Proof.
  unfold displayGiven. destruct o as [ds|]; [|discriminate].
  destruct (truthy_num (width ds) && truthy_num (height ds)); congruence.
Qed.

(** ** Stages of the pipeline *)

Lemma str_is_Some (s lit : string) : str_is (Some s) lit = String.eqb s lit.
Proof. reflexivity. Qed.


Lemma pos_nonzero (a : number) : 0 < a -> ~ a == 0.
Proof. intros H E. rewrite E in H. exact (Qlt_irrefl _ H). Qed.

Section Stages.
Context `{P : Platform}.

Lemma primaryCrop_inside {L : PlatformLaws P} (o : offset) (s : size) (data : string) :
  fits (cropRegion o s) (getImageInfo (createPixelMap data)) ->
  size_eq (getImageInfo (fst (primaryCrop o s data))) s.
Proof.
  intro F. unfold primaryCrop.
  destruct (crop_inside (createPixelMap data) (cropRegion o s) F) as [pm' [E S]].
  unfold cropRegion in E. cbv zeta. rewrite E. exact S.
Qed.

Lemma Shared_persist_dims (st : Shared.module_state) (w : world) (pm : PixelMap) :
  res_width (fst (fst (Shared.persist st w pm))) = width (getImageInfo pm) /\
  res_height (fst (fst (Shared.persist st w pm))) = height (getImageInfo pm).
Proof.
  unfold Shared.persist. cbv zeta.
  destruct (packing _ _ _) as [data|]; [destruct (writeSync _ _ _) as [[fs' n]|]|];
    split; reflexivity.
Qed.

Lemma Scoped_persist_dims (o : ImageCropData) (b : bool) (w : world) (pm : PixelMap) :
  res_width (fst (fst (Scoped.persist o b w pm))) = width (getImageInfo pm) /\
  res_height (fst (fst (Scoped.persist o b w pm))) = height (getImageInfo pm).
Proof.
  unfold Scoped.persist. cbv zeta.
  destruct (packing _ _ _) as [data|]; [destruct (writeSync _ _ _) as [[fs' n]|]|];
    split; reflexivity.
Qed.

End Stages.

Section Tie.
Context `{P : Platform}.

Lemma acquire_data (uri : string) : fst (fst (Scoped.acquire uri)) = uri.
Proof.
  unfold Scoped.acquire.
  destruct (startsWith uri "data:"); [reflexivity|].
  destruct (startsWith uri "http"); reflexivity.
Qed.

End Tie.

(** The reference platform is lawful. *)
Lemma Sim_laws (source : size) : PlatformLaws (Sim.platform source).
Proof.
  split.
  - intros pm r [H1 [H2 [H3 H4]]]. exists (rsize r). split.
    + cbn -[Qle_bool Qplus] in *. unfold Sim.inside.
      apply Qle_bool_iff in H1, H2, H3, H4.
      now rewrite H1, H2, H3, H4.
    + split; apply Qeq_refl.
  - intros pm a b Ea Eb. split; cbn -[Qred Qmult Qeq]; rewrite Qred_correct.
    + rewrite Ea. apply Qmult_1_r.
    + rewrite Eb. apply Qmult_1_r.
Qed.

(** ** Request validation *)

Lemma truthy_str_false (s : string) : truthy_str s = false <-> s = "".
Proof.
  unfold truthy_str. rewrite negb_false_iff. apply String.eqb_eq.
Qed.

Lemma truthy_num_false (n : number) : truthy_num n = false <-> n == 0.
Proof.
  unfold truthy_num. rewrite negb_false_iff. apply Qeq_bool_iff.
Qed.

Lemma quality_test (q : option number) :
  num_gt (qualityPercent q) 100 || num_lt (qualityPercent q) 0 = true
  <-> quality_out_of_range q.
Proof.
  destruct q as [v|]; cbn [qualityPercent quality_out_of_range].
  - destruct (truthy_num v) eqn:T.
    + rewrite orb_true_iff, num_gt_true, num_lt_true. tauto.
    + apply truthy_num_false in T.
      assert (F : Math.floor (v * 100) == 0).
      { unfold Math.floor. rewrite T. reflexivity. }
      split; [discriminate|].
      rewrite F. intros [H|H]; discriminate H.
  - split; [discriminate|tauto].
Qed.

(** The guards of [cropImage] reject exactly the requests that are invalid
    with a zero dimension. *)
Lemma validate_reject (uri : string) (options : CropArgs) :
  (exists m, validate uri options = Reject m)
  <-> invalid_request (fun n => n == 0) uri options.
Proof.
  unfold validate, invalid_request, lacks_offset_or_size, size_with. cbv zeta.
  destruct (truthy_str uri) eqn:U; cbn [negb].
  2:{ apply truthy_str_false in U. split; [intros _; now left | intros _; eauto]. }
  assert (Hu : uri <> "").
  { intro E. apply truthy_str_false in E. congruence. }
  destruct (a_offset options) as [o|]; [|split; [tauto | eauto]].
  destruct (a_size options) as [s|]; [|split; [tauto | eauto]].
  destruct (arg_x o) as [ox|]; [|split; [tauto | eauto]].
  destruct (arg_y o) as [oy|]; [|split; [tauto | eauto]].
  destruct (truthy_num (width s)) eqn:Tw; cbn [negb orb].
  2:{ apply truthy_num_false in Tw. split; [|eauto].
      intros _. right. right. left. exists s. tauto. }
  destruct (truthy_num (height s)) eqn:Th; cbn [negb orb].
  2:{ apply truthy_num_false in Th. split; [|eauto].
      intros _. right. right. left. exists s. tauto. }
  apply truthy_num_true in Tw, Th.
  destruct (num_gt _ 100 || num_lt _ 0) eqn:Q.
  - apply quality_test in Q. split; [tauto | eauto].
  - split.
    + intros [m Hm]. discriminate Hm.
    + intros [H|[[H|H]|[[s' [E [H|H]]]|H]]]; try congruence;
        try (injection E as <-; tauto).
      apply quality_test in H. congruence.
Qed.

Lemma zero_nonpositive (uri : string) (options : CropArgs) :
  invalid_request (fun n => n == 0) uri options ->
  invalid_request (fun n => n <= 0) uri options.
Proof.
  unfold invalid_request, size_with.
  intros [H|[H|[[s [E H]]|H]]]; auto.
  right. right. left. exists s. split; [exact E|].
  destruct H as [H|H]; [left|right]; rewrite H; apply Qle_refl.
Qed.

(** C3 (as amended).  [cropImage] gives up before any I/O, leaving the
    module state and the file system untouched, with a single warning in
    the log and its promise fulfilled with [undefined], whenever the source
    reference is empty, or [offset] or [size] is missing (or [offset] lacks
    a key), or [size] has a zero width or height, or [floor(quality * 100)]
    falls outside [0, 100].  Conversely every request that is given up in
    this way has an empty source reference, a missing [offset] or [size],
    a non-positive width or height, or a quality out of range. *)
Theorem rejection_before_io `{P : Platform}
  (uri : string) (options : CropArgs) (st : Shared.module_state) (w : world) :
  (invalid_request (fun n => n == 0) uri options ->
   exists m,
     Shared.cropImage uri options st w = (Returned None, st, w, [LogWarn m]) /\
     Scoped.cropImage uri options w = (Returned None, w, [LogWarn m])) /\
  (fst (fst (fst (Shared.cropImage uri options st w))) = Returned None \/
   fst (fst (Scoped.cropImage uri options w)) = Returned None ->
   invalid_request (fun n => n <= 0) uri options).
Proof.
  split.
  - intro H. apply validate_reject in H. destruct H as [m Hm].
    exists m. unfold Shared.cropImage, Scoped.cropImage. rewrite Hm. now split.
  - intro H. apply zero_nonpositive. apply validate_reject.
    unfold Shared.cropImage, Scoped.cropImage in H.
    destruct (validate uri options) as [m|o s q]; [now exists m|].
    exfalso. destruct H as [H|H].
    + destruct (Shared.getUriBuffer uri) as [buffer tr0].
      destruct (Shared.imageEditor _ _ _) as [[[[res|] st'] w'] tr];
        cbn [fst] in H; discriminate H.
    + destruct (Scoped.imageEditor _ _ _) as [[[[res|] o'] w'] tr];
        cbn [fst] in H; discriminate H.
Qed.

Lemma rejection_before_io_witness :
  let P := Sim.platform (mkSize 40 40) in
  let w : @world P := mkWorld [] 1700%Z in
  (exists m,
     Shared.cropImage "" (full_args (mkSize 10 10)) Shared.initial w
     = (Returned None, Shared.initial, w, [LogWarn m]) /\
     Scoped.cropImage "" (full_args (mkSize 10 10)) w
     = (Returned None, w, [LogWarn m])) /\
  invalid_request (fun n => n <= 0) "" (full_args (mkSize 10 10)).
Proof.
  intros P w.
  destruct (@rejection_before_io P "" (full_args (mkSize 10 10)) Shared.initial w)
    as [H1 H2].
  split.
  - apply H1. left. reflexivity.
  - apply H2. left. reflexivity.
Defined.

(** C3, the claim as stated fails: a request with an empty source
    reference is given up with the promise fulfilled with [undefined] and a
    warning in the log; no value tells the caller that the request was
    invalid. *)
Lemma rejection_is_undefined_return :
  let P := Sim.platform (mkSize 40 40) in
  let w : @world P := mkWorld [] 1700%Z in
  let args := full_args (mkSize 10 10) in
  Shared.cropImage "" args Shared.initial w
  = (Returned None, Shared.initial, w, [LogWarn msg_uri]) /\
  Scoped.cropImage "" args w = (Returned None, w, [LogWarn msg_uri]) /\
  ~ explicit_outcome (fst (fst (fst (Shared.cropImage "" args Shared.initial w)))) /\
  ~ explicit_outcome (fst (fst (Scoped.cropImage "" args w))).
Proof.
  intros P w args. repeat split; intros [v Hv]; discriminate Hv.
Qed.

(** ** Quality *)

(** [newOptions.quality || 90] never yields 0. *)
Lemma packQuality_nonzero (q : option number) : ~ packQuality q == 0.
Proof.
  unfold packQuality. destruct q as [v|]; [|discriminate].
  destruct (truthy_num v) eqn:T; [|discriminate].
  now apply truthy_num_true.
Qed.

(** C6, evaluated.  A quality of 1 is accepted and encoded at 100, an
    unspecified quality is encoded at 90, and the qualities 1.01 and -0.01
    are given up with the warning about the quality.  A quality of 0 is
    accepted but is encoded at 90, not at 0: [if (options.quality)] treats
    0 as absent, and [newOptions.quality || 90] can never hand 0 to the
    packer. *)
Theorem quality_zero_encoded_at_90 :
  let P := Sim.platform (mkSize 40 40) in
  let w : @world P := mkWorld [] 1700%Z in
  let shared q := Shared.cropImage "a.jpg" (quality_args q) Shared.initial w in
  let scoped q := Scoped.cropImage "a.jpg" (quality_args q) w in
  (validate "a.jpg" (quality_args (Some 0)) = Accept (mkOffset 0 0) (mkSize 10 10) 90 /\
   packings (snd (shared (Some 0))) = [90] /\
   packings (snd (scoped (Some 0))) = [90]) /\
  (forall q, ~ packQuality q == 0) /\
  (packings (snd (shared (Some 1))) = [100] /\
   packings (snd (scoped (Some 1))) = [100]) /\
  (packings (snd (shared None)) = [90] /\
   packings (snd (scoped None)) = [90]) /\
  (shared (Some (101 # 100)) = (Returned None, Shared.initial, w, [LogWarn msg_quality]) /\
   scoped (Some (101 # 100)) = (Returned None, w, [LogWarn msg_quality])) /\
  (shared (Some (- (1 # 100))) = (Returned None, Shared.initial, w, [LogWarn msg_quality]) /\
   scoped (Some (- (1 # 100))) = (Returned None, w, [LogWarn msg_quality])).
Proof.
  intros P w shared scoped.
  repeat split; try reflexivity.
  apply packQuality_nonzero.
Qed.

(** ** What [cropImage] hands back *)

(** C7, evaluated.  For a request with [includeBase64] set, [imageEditor]
    assembles the whole result (uri, path, name, width, height, size, type
    and base64 payload) in both variants, and [cropImage] hands back its
    [uri] field alone: the promise is fulfilled with a string. *)
Theorem cropImage_returns_uri_only :
  let P := Sim.platform (mkSize 40 40) in
  let w : @world P := mkWorld [] 1700%Z in
  let result :=
    {| res_uri := "file:///cache/ReactNative_cropped_image_1700.png";
       res_path := "/cache/ReactNative_cropped_image_1700.png";
       res_name := "ReactNative_cropped_image_1700.png";
       res_width := 2;
       res_height := 3;
       res_size := 5;
       res_type := "image/png";
       res_base64 :=
         Some (encodeToStringSync [Byte.x01; Byte.x01; Byte.x02; Byte.x02; Byte.x02]) |} in
  proj4_1 (Shared.imageEditor "a.png"
             (Shared.store Shared.initial "a.png" base64_args
                           (mkOffset 0 0) (mkSize 2 3) 90) w)
  = Some result /\
  proj4_1 (Scoped.imageEditor
             (Scoped.request "a.png" base64_args (mkOffset 0 0) (mkSize 2 3) 90)
             "a.png" w)
  = Some result /\
  proj4_1 (Shared.cropImage "a.png" base64_args Shared.initial w)
  = Returned (Some "file:///cache/ReactNative_cropped_image_1700.png") /\
  proj3_1 (Scoped.cropImage "a.png" base64_args w)
  = Returned (Some "file:///cache/ReactNative_cropped_image_1700.png").
Proof.
  intros P w result. repeat split; reflexivity.
Qed.

(** ** Reported byte size *)

Section Persist.
Context `{P : Platform}.

(** The variant with module-scope state reads the size back from the
    file system after the write. *)
Lemma Shared_persist_size (st : Shared.module_state) (w : world) (pm : PixelMap) :
  let r := Shared.persist st w pm in
  res_size (proj3_1 r) = statSize (w_fs (proj3_2 r)) (res_path (proj3_1 r)) /\
  In (IoStat (res_path (proj3_1 r))) (proj3_3 r).
Proof.
  unfold Shared.persist. cbv zeta.
  destruct (packing _ _ _) as [data|]; [destruct (writeSync _ _ _) as [[fs' n]|]|];
    (split; [reflexivity|]);
    cbn [proj3_3 proj3_1 snd fst res_path]; rewrite !in_app_iff; right; right;
    cbn; tauto.
Qed.

(** The request-scoped variant reports the count returned by [writeSync]
    (0 when nothing was written) and never reads the size back. *)
Lemma Scoped_persist_size
  (o : ImageCropData) (b : bool) (w : world) (pm : PixelMap) :
  let r := Scoped.persist o b w pm in
  let p := res_path (proj3_1 r) in
  res_size (proj3_1 r)
  = match packing pm (res_type (proj3_1 r)) (packQuality (d_quality o)) with
    | Some data =>
        match writeSync (openCreate (w_fs w) p) p data with
        | Some (_, n) => n
        | None => 0%Z
        end
    | None => 0%Z
    end /\
  forall q, ~ In (IoStat q) (proj3_3 r).
Proof.
  unfold Scoped.persist. cbv zeta.
  destruct (packing _ _ _) as [data|] eqn:E;
    [destruct (writeSync _ _ _) as [[fs' n]|] eqn:E2|];
    cbn [proj3_1 proj3_3 fst snd res_size res_type res_path];
    rewrite ?E, ?E2; (split; [reflexivity|]);
    intros q; destruct b, (truthy_opt_bool (d_includeBase64 o)); cbn;
    intuition discriminate.
Qed.

End Persist.

(** C8, evaluated.  When the cache already holds a longer file under the
    generated name (here 8 bytes, while the encoded image has 5), the
    request-scoped variant reports 5, the count returned by [writeSync],
    and never reads the size back; the persisted file has 8 bytes.  On the
    same input the variant with module-scope state reports 8, the size it
    reads back with [statSync]. *)
Theorem reported_size_is_write_count :
  let P := Sim.platform (mkSize 40 40) in
  let p := "/cache/ReactNative_cropped_image_1700.png" in
  let w : @world P := mkWorld [(p, repeat Byte.xff 8)] 1700%Z in
  let args := full_args (mkSize 2 3) in
  let scoped :=
    Scoped.imageEditor (Scoped.request "a.png" args (mkOffset 0 0) (mkSize 2 3) 90)
                       "a.png" w in
  let shared :=
    Shared.imageEditor "a.png"
      (Shared.store Shared.initial "a.png" args (mkOffset 0 0) (mkSize 2 3) 90) w in
  (exists res,
     proj4_1 scoped = Some res /\ res_path res = p /\
     res_size res = 5%Z /\ statSize (w_fs (proj4_3 scoped)) p = 8%Z) /\
  (forall q, ~ In (IoStat q) (proj4_4 scoped)) /\
  (exists res,
     proj4_1 shared = Some res /\ res_path res = p /\
     res_size res = 8%Z /\ statSize (w_fs (proj4_3 shared)) p = 8%Z).
Proof.
  intros P p w args scoped shared. split; [|split].
  - eexists. repeat split; reflexivity.
  - intros q H. cbn in H. intuition discriminate.
  - eexists. repeat split; reflexivity.
Qed.

(** ** Bounds of the crop region *)

(** C2, evaluated.  For a 40 x 40 source and the crop region of size
    20 x 20 at offset (30, 30), both variants log that the cropped size
    exceeds the original size and go on: the unclamped region is handed to
    [crop], whose failure is logged too, the uncropped image is packed and
    written, and the promise is fulfilled with the uri of the file. *)
Theorem bounds_violation_only_logged :
  let P := Sim.platform (mkSize 40 40) in
  let w : @world P := mkWorld [] 1700%Z in
  let p := "/cache/ReactNative_cropped_image_1700.png" in
  let region := mkRegion 30 30 (mkSize 20 20) in
  let shared := Shared.cropImage "a.png" outside_args Shared.initial w in
  let scoped := Scoped.cropImage "a.png" outside_args w in
  exceeds (mkOffset 30 30) (mkSize 20 20) (mkSize 40 40) = true /\
  proj4_1 shared = Returned (Some "file:///cache/ReactNative_cropped_image_1700.png") /\
  proj4_4 shared
  = [IoDecode "a.png"; IoGetImageInfo; LogError msg_exceeds;
     IoCrop region; LogError msg_crop_failed; IoGetImageInfo;
     IoOpenCreate p; IoPacking "image/png" 90; IoWrite p 80; IoClose;
     IoRelease; IoStat p] /\
  proj3_1 scoped = Returned (Some "file:///cache/ReactNative_cropped_image_1700.png") /\
  proj3_3 scoped
  = [IoOpenRead "a.png"; IoDecode "a.png"; IoGetImageInfo; LogError msg_exceeds;
     IoCrop region; LogError msg_crop_failed; IoGetImageInfo;
     IoPacking "image/png" 90; IoOpenCreate p; IoWrite p 80; IoClose;
     IoClose; IoRelease].
Proof.
  intros P w p region shared scoped. repeat split; reflexivity.
Qed.

(** ** State kept between calls *)

(** C10, evaluated.  In the variant with module-scope state, a call that
    gives neither a display size nor a resize mode writes the 20 x 10 crop
    unchanged when it runs on the initial module state, and writes a
    10 x 5 image when it runs after a call that asked for the display size
    10 x 10 in mode [contain]: the display size and the mode stored by the
    first call are used by the second.  Both runs of the second call start
    from the same file system and clock and have the same arguments. *)
Theorem second_call_depends_on_first :
  let P := Sim.platform (mkSize 40 40) in
  let w : @world P := mkWorld [] 1700%Z in
  let p := "/cache/ReactNative_cropped_image_1700.png" in
  let after_first := proj4_2 (Shared.cropImage "a.png" first_args Shared.initial w) in
  let fresh := Shared.cropImage "a.png" second_args Shared.initial w in
  let stale := Shared.cropImage "a.png" second_args after_first w in
  d_displaySize (Shared.newOptions after_first) = Some (mkSize 10 10) /\
  d_resizeMode (Shared.newOptions after_first) = Some "contain" /\
  Sim.content (w_fs (proj4_3 fresh)) p = Sim.pack (mkSize 20 10) /\
  Sim.content (w_fs (proj4_3 stale)) p = Sim.pack (mkSize 10 5) /\
  fresh <> stale.
Proof.
  intros P w p after_first fresh stale. repeat split; try reflexivity.
  intro H.
  apply (f_equal (fun r : completion * Shared.module_state * @world P * list event =>
                    List.length (Sim.content (w_fs (proj4_3 r)) p))) in H.
  vm_compute in H. discriminate H.
Qed.

(** ** Mode [cover] *)

(** In the request-scoped variant the region has the display size, and its
    offset centres the display size in the re-measured image along the
    overfilled axis. *)
Lemma Scoped_TargetRect_cover (o : ImageCropData) (d scaled : size) :
  d_displaySize o = Some d ->
  d_resizeMode o = Some "cover" ->
  let aspect := width (d_size o) / height (d_size o) in
  let targetAspect := width d / height d in
  exists r,
    Scoped.TargetRect o (Some scaled) = Some r /\
    rsize r = d /\
    (targetAspect <= aspect ->
     rx r = Math.abs ((width scaled - width d) / 2) /\ ry r = 0) /\
    (~ targetAspect <= aspect ->
     ry r = Math.abs ((height scaled - height d) / 2) /\ rx r = 0).
Proof.
  intros Hd Hm aspect targetAspect. unfold Scoped.TargetRect. rewrite Hd, Hm.
  rewrite !str_is_Some. cbn [String.eqb Ascii.eqb Bool.eqb]. cbv zeta.
  fold aspect targetAspect.
  destruct (num_le targetAspect aspect) eqn:E; eexists;
    (split; [reflexivity|]); (split; [reflexivity|]); cbn [rx ry]; split; intro H.
  - now split.
  - apply num_le_true in E. contradiction.
  - apply num_le_true in H. congruence.
  - now split.
Qed.

(** C1, evaluated on the crop size 100 x 200 and the display size
    100 x 100 in mode [cover].  In the variant with module-scope state
    [TargetRect] returns the region of size 100 x 200 at offset (0, 50):
    the size is the crop size, not the display size; the secondary crop
    fails and the result is 100 x 200.  On the same request the
    request-scoped variant returns the region of size 100 x 100 at offset
    (0, 50) and the result is 100 x 100. *)
Theorem cover_region_has_crop_size :
  let P := Sim.platform (mkSize 400 400) in
  let w : @world P := mkWorld [] 1700%Z in
  let c := mkSize 100 200 in
  let d := mkSize 100 100 in
  let st := Shared.store Shared.initial "a.png" cover_args (mkOffset 0 0) c 90 in
  let o := Scoped.request "a.png" cover_args (mkOffset 0 0) c 90 in
  let shared := Shared.imageEditor "a.png" st w in
  let scoped := Scoped.imageEditor o "a.png" w in
  (exists r,
     Shared.TargetRect (Shared.set_resizeScaleSize st (mkSize 100 200)) = Some r /\
     rx r == 0 /\ ry r == 50 /\ rsize r = c /\ rsize r <> d) /\
  (exists res,
     proj4_1 shared = Some res /\ res_width res == 100 /\ res_height res == 200) /\
  Shared.resizeScaleSize (proj4_2 shared) = mkSize 100 200 /\
  In (LogError msg_crop_failed) (proj4_4 shared) /\
  (exists r,
     Scoped.TargetRect o (Some (mkSize 100 200)) = Some r /\
     rx r == 0 /\ ry r == 50 /\ rsize r = d) /\
  (exists res,
     proj4_1 scoped = Some res /\ res_width res == 100 /\ res_height res == 100).
Proof.
  intros P w c d st o shared scoped.
  split; [|split; [|split; [|split; [|split]]]].
  - eexists. repeat split; try reflexivity. discriminate.
  - eexists. repeat split; reflexivity.
  - reflexivity.
  - vm_compute. tauto.
  - eexists. repeat split; reflexivity.
  - eexists. repeat split; reflexivity.
Qed.

(** ** Default resize mode *)

Lemma sizes_differ (c d : size) :
  ~ width c / height c == width d / height d ->
  num_neq (width d) (width c) || num_neq (height d) (height c) = true.
Proof.
  intro Hne. unfold num_neq.
  destruct (Qeq_bool (width d) (width c)) eqn:Ew; [|reflexivity].
  destruct (Qeq_bool (height d) (height c)) eqn:Eh; [|reflexivity].
  exfalso. apply Hne. apply Qeq_bool_iff in Ew, Eh. now rewrite Ew, Eh.
Qed.

(** The request-scoped variant stores no default: a request with a
    display size and no [resizeMode] reaches the last branch of the mode
    cascade, where [TargetRect] returns the crop size, and the image is
    scaled by (1, 1). *)
Example Scoped_omitted_mode_no_cover :
  let P := Sim.platform (mkSize 40 40) in
  let w : @world P := mkWorld [] 1700%Z in
  let options := display_args (mkSize 10 20) (Some (mkSize 10 10)) in
  let o := Scoped.request "a.png" options (mkOffset 0 0) (mkSize 10 20) 90 in
  let r := Scoped.imageEditor o "a.png" w in
  d_resizeMode (proj4_2 r) = None /\
  Scoped.TargetRect o None = Some (mkRegion 0 0 (mkSize 10 20)) /\
  exists res, proj4_1 r = Some res /\ res_width res == 10 /\ res_height res == 20.
Proof.
  intros P w options o r. repeat split; try reflexivity.
  eexists. repeat split; reflexivity.
Qed.

(** *** The request-scoped variant in mode [cover] *)

Lemma max_bounds (a b : number) : a <= Math.max a b /\ b <= Math.max a b.
Proof.
  unfold Math.max. destruct (Qle_bool a b) eqn:E.
  - apply Qle_bool_iff in E. split; [exact E | apply Qle_refl].
  - split; [apply Qle_refl|].
    apply Qlt_le_weak. apply Qnot_le_lt. intro L.
    apply Qle_bool_iff in L. congruence.
Qed.

(** After the uniform scale by the larger ratio, both dimensions of the
    scaled crop reach the display size. *)
Lemma cover_overfills (c d : number) (ratio : number) :
  0 < c -> d / c <= ratio -> d <= c * ratio.
Proof.
  intros Hc H.
  apply (Qle_trans _ (c * (d / c))).
  - rewrite Qmult_div_r; [apply Qle_refl | now apply pos_nonzero].
  - rewrite !(Qmult_comm c). apply Qmult_le_compat_r; [exact H|].
    now apply Qlt_le_weak.
Qed.

Lemma centred_fits (s d : number) : d <= s -> Math.abs ((s - d) / 2) + d <= s.
Proof.
  intro H. unfold Math.abs. rewrite Qabs_pos.
  - unfold Qdiv.
    setoid_replace ((s - d) * / 2 + d) with ((1 # 2) * s + (1 # 2) * d) by field.
    lra.
  - apply Qle_shift_div_l; [reflexivity | lra].
Qed.

Section Cover.
Context `{P : Platform} {L : PlatformLaws P} {X : ExactScale P}.

(** On a lawful platform that scales exactly, for positive crop and
    display sizes of unequal aspect and a crop region inside the decoded
    source, the request-scoped variant in mode [cover] produces a result of
    exactly the display size. *)
Lemma Scoped_cover_output
  (o : ImageCropData) (w : world) (uri : string) (d : size) :
  let c := d_size o in
  0 < width c -> 0 < height c -> 0 < width d -> 0 < height d ->
  d_displaySize o = Some d -> d_resizeMode o = Some "cover" ->
  ~ width c / height c == width d / height d ->
  fits (cropRegion (d_offset o) c) (getImageInfo (createPixelMap uri)) ->
  exists res o' w' tr,
    Scoped.imageEditor o uri w = (Some res, o', w', tr) /\
    res_width res == width d /\ res_height res == height d.
Proof.
  intros c Hcw Hch Hdw Hdh Hd Hm Hne F.
  pose proof (primaryCrop_inside _ _ _ F) as S1.
  unfold Scoped.imageEditor.
  pose proof (acquire_data uri) as A.
  destruct (Scoped.acquire uri) as [[data openFile] tr0]. cbn [fst] in A. subst data.
  destruct (primaryCrop _ _ uri) as [pm1 tr1]. cbn [fst] in S1.
  unfold Scoped.resize. rewrite Hd, (displayGiven_pos d Hdw Hdh). cbv zeta. fold c.
  pose proof Hne as Hne'. apply num_eq_false in Hne'. rewrite Hne', Hm, !str_is_Some.
  cbn [String.eqb Ascii.eqb Bool.eqb].
  rewrite (sizes_differ c d Hne).
  set (ratio := Math.max (width d / width c) (height d / height c)).
  set (pm2 := scale pm1 ratio ratio).
  destruct (Scoped_TargetRect_cover o d (getImageInfo pm2) Hd Hm)
    as [r [HT [Hr [Hx Hy]]]].
  fold c in Hx, Hy. rewrite HT.
  destruct (max_bounds (width d / width c) (height d / height c)) as [Bx By].
  fold ratio in Bx, By.
  destruct (scale_exact pm1 ratio ratio) as [Sw Sh]. fold pm2 in Sw, Sh.
  cbn [width height] in Sw, Sh. destruct S1 as [Cw Ch].
  assert (Ow : width d <= width (getImageInfo pm2)).
  { rewrite Sw, Cw. now apply cover_overfills. }
  assert (Oh : height d <= height (getImageInfo pm2)).
  { rewrite Sh, Ch. now apply cover_overfills. }
  assert (Fr : fits r (getImageInfo pm2)).
  { unfold fits. rewrite Hr.
    destruct (Qlt_le_dec (width c / height c) (width d / height d)) as [Lt|Le].
    - destruct (Hy (Qlt_not_le _ _ Lt)) as [Ey Ex]. rewrite Ex, Ey.
      repeat split.
      + apply Qle_refl.
      + apply Qabs_nonneg.
      + lra.
      + now apply centred_fits.
    - destruct (Hx Le) as [Ex Ey]. rewrite Ex, Ey.
      repeat split.
      + apply Qabs_nonneg.
      + apply Qle_refl.
      + now apply centred_fits.
      + lra. }
  destruct (crop_inside pm2 r Fr) as [pm3 [Ec [Rw Rh]]]. rewrite Ec.
  rewrite Hr in Rw, Rh.
  pose proof (Scoped_persist_dims o openFile w pm3) as [Dw Dh].
  destruct (Scoped.persist o openFile w pm3) as [[res w'] tr3]. cbn [fst] in Dw, Dh.
  eexists res, o, w', _. split; [reflexivity|].
  rewrite Dw, Dh. split; assumption.
Qed.

End Cover.

(** The reference platform scales exactly. *)
Lemma Sim_exact (source : size) : ExactScale (Sim.platform source).
Proof.
  split. intros pm a b. split; cbn -[Qred Qmult Qeq]; apply Qred_correct.
Qed.

(** The spec's scenario (crop 100 x 200, display 100 x 100, mode
    [cover]) in the request-scoped variant, obtained from the general
    lemma. *)
Example Scoped_cover_scenario :
  let P := Sim.platform (mkSize 400 400) in
  let w : @world P := mkWorld [] 1700%Z in
  let o := Scoped.request "a.png" cover_args (mkOffset 0 0) (mkSize 100 200) 90 in
  exists res o' w' tr,
    Scoped.imageEditor o "a.png" w = (Some res, o', w', tr) /\
    res_width res == 100 /\ res_height res == 100.
Proof.
  intros P w o.
  apply (@Scoped_cover_output P (Sim_laws _) (Sim_exact _) o w "a.png" (mkSize 100 100));
    try reflexivity.
  - intro E. vm_compute in E. discriminate E.
  - repeat split; vm_compute; discriminate.
Qed.

(** ** Double precision: rounding to nearest *)

Section Rounding.
Local Open Scope Z_scope.

(** *** Powers of two *)
Lemma pow2_pos (e : Z) : (0 < 2 ^ e)%Q.
Proof. apply Qpower_0_lt. reflexivity. Qed.

Lemma pow2_add (a b : Z) : (2 ^ (a + b) == 2 ^ a * 2 ^ b)%Q.
Proof. apply Qpower_plus. discriminate. Qed.

Lemma pow2_le (a b : Z) : a <= b -> (2 ^ a <= 2 ^ b)%Q.
Proof. intro H. apply Qpower_le_compat_l; [exact H | discriminate]. Qed.

Lemma pow2_lt (a b : Z) : a < b -> (2 ^ a < 2 ^ b)%Q.
Proof. intro H. apply Qpower_lt_compat_l; [exact H | reflexivity]. Qed.

Lemma pow2_Z (n : Z) : 0 <= n -> (2 ^ n == inject_Z (2 ^ n))%Q.
Proof. intro H. symmetry. apply (Zpower_Qpower 2 n H). Qed.

Lemma pow2_succ (a : Z) : (2 ^ (a + 1) == 2 * 2 ^ a)%Q.
Proof. rewrite pow2_add. change (2 ^ 1)%Q with 2%Q. ring. Qed.

(** *** Number of binary digits *)
Lemma digits2_bounds (p : positive) :
  2 ^ (Zpos (digits2_pos p) - 1) <= Zpos p < 2 ^ Zpos (digits2_pos p).
Proof.
  induction p as [p IH | p IH |]; cbn [digits2_pos].
  - rewrite Pos2Z.inj_succ.
    replace (Z.succ (Zpos (digits2_pos p)) - 1) with (Z.succ (Zpos (digits2_pos p) - 1)) by lia.
    rewrite !Z.pow_succ_r by lia. lia.
  - rewrite Pos2Z.inj_succ.
    replace (Z.succ (Zpos (digits2_pos p)) - 1) with (Z.succ (Zpos (digits2_pos p) - 1)) by lia.
    rewrite !Z.pow_succ_r by lia. lia.
  - cbn. lia.
Qed.

Lemma Zdigits2_nonneg (m : Z) : 0 <= Zdigits2 m.
Proof. destruct m; cbn; lia. Qed.

Lemma Zdigits2_bounds (m : Z) :
  0 < m -> 2 ^ (Zdigits2 m - 1) <= m < 2 ^ Zdigits2 m.
Proof. destruct m as [|p|p]; try lia. intros _. apply digits2_bounds. Qed.

Lemma Zdigits2_upper (m : Z) : 0 <= m -> m < 2 ^ Zdigits2 m.
Proof.
  intro H. destruct (Z.eq_dec m 0) as [->|Hn]; [cbn; lia|].
  apply Zdigits2_bounds. lia.
Qed.

Lemma Zdigits2_le (m k : Z) : 0 <= m -> 0 <= k -> m < 2 ^ k -> Zdigits2 m <= k.
Proof.
  intros Hm Hk H. destruct (Z.eq_dec m 0) as [->|Hn]; [cbn; lia|].
  destruct (Zdigits2_bounds m ltac:(lia)) as [L _].
  destruct (Z_le_gt_dec (Zdigits2 m) k) as [|G]; [assumption|].
  assert (2 ^ k <= 2 ^ (Zdigits2 m - 1)) by (apply Z.pow_le_mono_r; lia). lia.
Qed.

Lemma Zdigits2_ge (m k : Z) : 0 <= k -> 2 ^ k <= m -> k + 1 <= Zdigits2 m.
Proof.
  intros Hk H.
  assert (0 < 2 ^ k) by (apply Z.pow_pos_nonneg; lia).
  pose proof (Zdigits2_upper m ltac:(lia)) as U.
  destruct (Z_le_gt_dec (k + 1) (Zdigits2 m)) as [|G]; [assumption|].
  assert (2 ^ Zdigits2 m <= 2 ^ k) by (apply Z.pow_le_mono_r; lia). lia.
Qed.

(** *** Shifting a mantissa to the right

    A shift by one place halves the number and keeps its position with
    respect to the truncated mantissa. *)
Lemma inject_Z_xO (p : positive) : (inject_Z (Zpos p~0) == 2 * inject_Z (Zpos p))%Q.
Proof. rewrite Pos2Z.inj_xO, inject_Z_mult. reflexivity. Qed.

Lemma inject_Z_xI (p : positive) : (inject_Z (Zpos p~1) == 2 * inject_Z (Zpos p) + 1)%Q.
Proof. rewrite Pos2Z.inj_xI, inject_Z_plus, inject_Z_mult. reflexivity. Qed.

Lemma shr_1_situated (mrs : shr_record) (y : Q) :
  0 <= shr_m mrs -> situated mrs y ->
  situated (shr_1 mrs) (y / 2) /\ shr_m (shr_1 mrs) = shr_m mrs / 2.
Proof.
  destruct mrs as [m r s]. cbn [shr_m]. intros Hm H.
  assert (E : (y / 2 == (1 # 2) * y)%Q) by (unfold Qdiv; change (/ 2)%Q with (1 # 2)%Q; ring).
  unfold situated in *. cbn [shr_m shr_r shr_s] in H.
  destruct m as [|p|p]; [| |lia].
  - cbn [shr_1 shr_m shr_r shr_s]. split; [|reflexivity].
    change (inject_Z 0) with 0%Q in *.
    destruct r, s; cbn [orb]; rewrite E; lra.
  - destruct p as [p|p|].
    + cbn [shr_1 shr_m shr_r shr_s]. split.
      * pose proof (inject_Z_xI p) as I.
        destruct r, s; cbn [orb]; rewrite E; lra.
      * rewrite Pos2Z.inj_xI. apply Z.div_unique with (r := 1); lia.
    + cbn [shr_1 shr_m shr_r shr_s]. split.
      * pose proof (inject_Z_xO p) as I.
        destruct r, s; cbn [orb]; rewrite E; lra.
      * rewrite Pos2Z.inj_xO. apply Z.div_unique with (r := 0); lia.
    + cbn [shr_1 shr_m shr_r shr_s]. split; [|reflexivity].
      change (inject_Z 1) with 1%Q in *. change (inject_Z 0) with 0%Q.
      destruct r, s; cbn [orb]; rewrite E; lra.
Qed.

Lemma situated_ext (mrs : shr_record) (y y' : Q) :
  (y == y')%Q -> situated mrs y -> situated mrs y'.
Proof.
  intro E. unfold situated. destruct (shr_r mrs), (shr_s mrs); rewrite E; trivial.
Qed.

Lemma iter_pos_nat {A : Type} (f : A -> A) (p : positive) (a : A) :
  iter_pos f p a = Nat.iter (Pos.to_nat p) f a.
Proof.
  revert a. induction p as [p IH | p IH |]; intro a; cbn [iter_pos].
  - rewrite !IH, Pos2Nat.inj_xI, Nat.iter_succ_r.
    replace (2 * Pos.to_nat p)%nat with (Pos.to_nat p + Pos.to_nat p)%nat by lia.
    now rewrite Nat.iter_add.
  - rewrite !IH, Pos2Nat.inj_xO.
    replace (2 * Pos.to_nat p)%nat with (Pos.to_nat p + Pos.to_nat p)%nat by lia.
    now rewrite Nat.iter_add.
  - reflexivity.
Qed.

Lemma iter_shr_1 (k : nat) (mrs : shr_record) (y : Q) :
  0 <= shr_m mrs -> situated mrs y ->
  situated (Nat.iter k shr_1 mrs) (y / 2 ^ Z.of_nat k) /\
  shr_m (Nat.iter k shr_1 mrs) = shr_m mrs / 2 ^ Z.of_nat k.
Proof.
  intros Hm H. induction k as [|k [IH1 IH2]].
  - cbn. split; [|now rewrite Z.div_1_r].
    apply (situated_ext mrs y); [|exact H]. unfold Qdiv. change (/ 1)%Q with 1%Q. ring.
  - change (Nat.iter (S k) shr_1 mrs) with (shr_1 (Nat.iter k shr_1 mrs)).
    assert (P : 0 <= shr_m (Nat.iter k shr_1 mrs)).
    { rewrite IH2. apply Z.div_pos; [exact Hm|]. apply Z.pow_pos_nonneg; lia. }
    destruct (shr_1_situated _ _ P IH1) as [S1 S2]. split.
    + apply (situated_ext _ (y / 2 ^ Z.of_nat k / 2)%Q); [|exact S1].
      rewrite Nat2Z.inj_succ. unfold Z.succ. rewrite pow2_succ.
      pose proof (pow2_pos (Z.of_nat k)). field. lra.
    + rewrite S2, IH2, Nat2Z.inj_succ, Z.pow_succ_r by lia.
      assert (0 < 2 ^ Z.of_nat k) by (apply Z.pow_pos_nonneg; lia).
      rewrite (Z.mul_comm 2), Z.div_div by lia. reflexivity.
Qed.

Lemma shr_situated (mrs : shr_record) (e n : Z) (y : Q) :
  0 <= shr_m mrs -> 0 <= n -> situated mrs y ->
  snd (shr mrs e n) = e + n /\
  situated (fst (shr mrs e n)) (y / 2 ^ n) /\
  shr_m (fst (shr mrs e n)) = shr_m mrs / 2 ^ n.
Proof.
  intros Hm Hn H. destruct n as [|p|p]; [| |lia].
  - cbn [shr fst snd]. split; [lia|]. split; [|now rewrite Z.div_1_r].
    apply (situated_ext mrs y); [|exact H]. unfold Qdiv. change (/ 2 ^ 0)%Q with 1%Q. ring.
  - cbn [shr fst snd]. split; [reflexivity|].
    rewrite iter_pos_nat. rewrite <- (positive_nat_Z p).
    now apply iter_shr_1.
Qed.

Lemma loc_of_shr_record_of_loc (m : Z) (l : location) :
  loc_of_shr_record (shr_record_of_loc m l) = l.
Proof. destruct l as [|[| |]]; reflexivity. Qed.

Lemma shr_m_of_loc (m : Z) (l : location) : shr_m (shr_record_of_loc m l) = m.
Proof. destruct l as [|[| |]]; reflexivity. Qed.

Lemma situated_floor (mrs : shr_record) (y : Q) :
  situated mrs y -> (inject_Z (shr_m mrs) <= y < inject_Z (shr_m mrs) + 1)%Q.
Proof. unfold situated. destruct (shr_r mrs), (shr_s mrs); lra. Qed.

Lemma round_nearest_even_spec (mrs : shr_record) (y : Q) :
  situated mrs y ->
  let m1 := round_nearest_even (shr_m mrs) (loc_of_shr_record mrs) in
  shr_m mrs <= m1 <= shr_m mrs + 1 /\
  (forall k, (y <= inject_Z k)%Q -> m1 <= k) /\
  (forall k, (inject_Z k <= y)%Q -> k <= m1).
Proof.
  intros H m1.
  assert (B : shr_m mrs <= m1 <= shr_m mrs + 1).
  { subst m1. destruct mrs as [m r s]. cbn [shr_m loc_of_shr_record].
    destruct r, s; cbn [round_nearest_even]; try lia.
    destruct (Z.even m); lia. }
  split; [exact B|]. pose proof (situated_floor _ _ H) as F. split.
  - intros k Hk.
    assert (D : m1 = shr_m mrs \/ (inject_Z (shr_m mrs) < y)%Q).
    { subst m1. destruct mrs as [m r s]. unfold situated in H.
      cbn [shr_m shr_r shr_s loc_of_shr_record] in *.
      destruct r, s; cbn [round_nearest_even]; try (right; lra); left; reflexivity. }
    destruct D as [D|D].
    + rewrite D. rewrite Zle_Qle. lra.
    + assert (shr_m mrs < k) by (rewrite Zlt_Qlt; lra). lia.
  - intros k Hk.
    assert (k < shr_m mrs + 1).
    { rewrite Zlt_Qlt, inject_Z_plus. change (inject_Z 1) with 1%Q. lra. }
    lia.
Qed.

Lemma fexp_eq (e : Z) : fexp e = Z.max (e - 53) (-1074).
Proof. reflexivity. Qed.

Lemma fexp_mono (a b : Z) : a <= b -> fexp a <= fexp b.
Proof. rewrite !fexp_eq. lia. Qed.

Lemma bounded_inv (m : positive) (e : Z) :
  bounded Ieee.prec Ieee.emax m e = true ->
  fexp (Zpos (digits2_pos m) + e) = e /\ e <= 971.
Proof.
  unfold bounded, canonical_mantissa. rewrite andb_true_iff.
  intros [C B]. apply Z.eqb_eq in C. apply Z.leb_le in B. split; [exact C|exact B].
Qed.

Lemma bounded_intro (m : positive) (e : Z) :
  fexp (Zpos (digits2_pos m) + e) = e -> e <= 971 -> bounded Ieee.prec Ieee.emax m e = true.
Proof.
  intros C B. unfold bounded, canonical_mantissa. rewrite andb_true_iff. split.
  - now apply Z.eqb_eq.
  - now apply Z.leb_le.
Qed.

Lemma mant_bounds (m : positive) (e : Z) :
  (2 ^ (Zpos (digits2_pos m) - 1 + e) <= inject_Z (Zpos m) * 2 ^ e
   /\ inject_Z (Zpos m) * 2 ^ e < 2 ^ (Zpos (digits2_pos m) + e))%Q.
Proof.
  destruct (digits2_bounds m) as [L U].
  rewrite !pow2_add. pose proof (pow2_pos e) as He.
  rewrite Zle_Qle in L. rewrite Zlt_Qlt in U.
  rewrite <- pow2_Z in L by lia. rewrite <- pow2_Z in U by lia.
  split.
  - apply Qmult_le_compat_r; lra.
  - apply Qmult_lt_compat_r; lra.
Qed.

Lemma val_pos (f : spec_float) : posfloat f -> (0 < val f)%Q.
Proof.
  destruct f as [| | |[|] m e]; cbn; try contradiction. intros _.
  apply Qmult_lt_0_compat; [reflexivity | apply pow2_pos].
Qed.

(** *** Order of canonical positive numbers

    On positive doubles in canonical form the comparison of the standard
    is the comparison of the rational values. *)
Lemma canonical_lt (m1 m2 : positive) (e1 e2 : Z) :
  bounded Ieee.prec Ieee.emax m1 e1 = true -> bounded Ieee.prec Ieee.emax m2 e2 = true ->
  e1 < e2 ->
  (inject_Z (Zpos m1) * 2 ^ e1 < inject_Z (Zpos m2) * 2 ^ e2)%Q.
Proof.
  intros B1 B2 H.
  destruct (bounded_inv _ _ B1) as [C1 _]. destruct (bounded_inv _ _ B2) as [C2 _].
  assert (D : Zpos (digits2_pos m1) + e1 < Zpos (digits2_pos m2) + e2).
  { destruct (Z_lt_ge_dec (Zpos (digits2_pos m1) + e1) (Zpos (digits2_pos m2) + e2))
      as [|G]; [assumption|].
    apply Z.ge_le in G. apply fexp_mono in G. lia. }
  destruct (mant_bounds m1 e1) as [_ U]. destruct (mant_bounds m2 e2) as [L _].
  assert (P : (2 ^ (Zpos (digits2_pos m1) + e1) <= 2 ^ (Zpos (digits2_pos m2) - 1 + e2))%Q)
    by (apply pow2_le; lia).
  lra.
Qed.

Lemma compare_posfloat (f g : spec_float) :
  posfloat f -> posfloat g -> SFcompare f g = Some (val f ?= val g)%Q.
Proof.
  destruct f as [| | |[|] m1 e1]; cbn [posfloat]; try contradiction.
  destruct g as [| | |[|] m2 e2]; cbn [posfloat]; try contradiction.
  intros B1 B2. cbn [SFcompare val]. f_equal.
  destruct (Z.compare_spec e1 e2) as [E|L|G].
  - subst e2. pose proof (pow2_pos e1) as P.
    change (Pos.compare_cont Eq m1 m2) with (Pos.compare m1 m2).
    destruct (Pos.compare_spec m1 m2) as [E|L|G]; symmetry.
    + subst m2. apply Qeq_alt. reflexivity.
    + apply Qlt_alt. apply Qmult_lt_compat_r; [exact P|].
      rewrite <- Zlt_Qlt. lia.
    + apply Qgt_alt. apply Qmult_lt_compat_r; [exact P|].
      rewrite <- Zlt_Qlt. lia.
  - symmetry. apply Qlt_alt. now apply canonical_lt.
  - symmetry. apply Qgt_alt. apply canonical_lt; [assumption..|lia].
Qed.

Lemma leb_posfloat (f g : spec_float) :
  posfloat f -> posfloat g -> (SFleb f g = true <-> (val f <= val g)%Q).
Proof.
  intros Pf Pg. unfold SFleb. rewrite (compare_posfloat f g Pf Pg), Qle_alt.
  destruct (val f ?= val g)%Q; split; intro H; try reflexivity; try discriminate.
  now contradiction H.
Qed.

Lemma ltb_posfloat (f g : spec_float) :
  posfloat f -> posfloat g -> (SFltb f g = true <-> (val f < val g)%Q).
Proof.
  intros Pf Pg. unfold SFltb. rewrite (compare_posfloat f g Pf Pg), Qlt_alt.
  destruct (val f ?= val g)%Q; split; intro H; try reflexivity; discriminate.
Qed.

Lemma eqb_posfloat (f g : spec_float) :
  posfloat f -> posfloat g -> (SFeqb f g = true <-> f = g).
Proof.
  intros Pf Pg. split.
  - destruct f as [| | |[|] m1 e1]; cbn [posfloat] in Pf; try contradiction.
    destruct g as [| | |[|] m2 e2]; cbn [posfloat] in Pg; try contradiction.
    unfold SFeqb. cbn [SFcompare].
    destruct (Z.compare_spec e1 e2) as [E|L|G]; try discriminate.
    change (Pos.compare_cont Eq m1 m2) with (Pos.compare m1 m2).
    destruct (Pos.compare_spec m1 m2) as [E'|L|G]; try discriminate.
    intros _. now subst.
  - intros <-. unfold SFeqb. rewrite (compare_posfloat f f Pf Pf).
    assert (E : (val f ?= val f)%Q = Eq) by (apply Qeq_alt; reflexivity).
    now rewrite E.
Qed.


(** *** Rounding to nearest, ties to even *)
Lemma shr_nonpos (mrs : shr_record) (e n : Z) : n <= 0 -> shr mrs e n = (mrs, e).
Proof. destruct n; [reflexivity | lia | reflexivity]. Qed.

(** The second normalisation of [binary_round_aux]: a rounded mantissa
    of at most 53 bits is left alone, the mantissa 2^53 becomes 2^52 with
    the next exponent; the value is kept. *)
Lemma round_finish (m1 e' : Z) :
  0 <= m1 <= 2 ^ 53 -> -1074 <= e' ->
  (0 < m1 -> e' = -1074 \/ 2 ^ 52 <= m1) ->
  exists M E,
    shr_fexp Ieee.prec Ieee.emax m1 e' loc_Exact
    = ({| shr_m := M; shr_r := false; shr_s := false |}, E) /\
    0 <= M /\ (inject_Z M * 2 ^ E == inject_Z m1 * 2 ^ e')%Q /\
    (0 < M -> fexp (Zdigits2 M + E) = E).
Proof.
  intros [H0 H1] He Hc. unfold shr_fexp.
  change (SpecFloat.fexp Ieee.prec Ieee.emax) with fexp.
  destruct (Z.eq_dec m1 (2 ^ 53)) as [->|Hn].
  - exists (2 ^ 52), (e' + 1).
    change (Zdigits2 (2 ^ 53)) with 54. rewrite fexp_eq.
    replace (Z.max (54 + e' - 53) (-1074) - e') with 1 by lia.
    split; [reflexivity|]. split; [apply Z.pow_nonneg; lia|]. split.
    + rewrite pow2_succ. change (2 ^ 53) with (2 * 2 ^ 52). rewrite inject_Z_mult.
      change (inject_Z 2) with 2%Q. ring.
    + intros _. change (Zdigits2 (2 ^ 52)) with 53. rewrite fexp_eq. lia.
  - assert (D : Zdigits2 m1 <= 53) by (apply Zdigits2_le; lia).
    pose proof (Zdigits2_nonneg m1) as D0.
    rewrite shr_nonpos by (rewrite fexp_eq; lia).
    exists m1, e'. split; [reflexivity|]. split; [exact H0|]. split; [reflexivity|].
    intro Hp. rewrite fexp_eq. destruct (Hc Hp) as [->|G]; [lia|].
    pose proof (Zdigits2_ge m1 52 ltac:(lia) G). lia.
Qed.

Lemma posfloat_good (f : spec_float) : posfloat f -> good f.
Proof. destruct f as [| | |[|] m e]; cbn; intro H; try contradiction; exact H. Qed.

Lemma posfloat_exponent (f : spec_float) :
  posfloat f ->
  exists m e, f = S754_finite false m e /\ bounded Ieee.prec Ieee.emax m e = true /\
              -1074 <= e <= 971 /\ Zpos (digits2_pos m) <= 53.
Proof.
  destruct f as [| | |[|] m e]; cbn; try contradiction. intro B.
  exists m, e. split; [reflexivity|]. split; [exact B|].
  destruct (bounded_inv _ _ B) as [C U]. rewrite fexp_eq in C. lia.
Qed.

Lemma val_below_top (f : spec_float) : posfloat f -> (val f < 2 ^ 1024)%Q.
Proof.
  intro P. destruct (posfloat_exponent f P) as [m [e [-> [B [He Hd]]]]].
  cbn [val]. destruct (mant_bounds m e) as [_ U].
  assert (2 ^ (Zpos (digits2_pos m) + e) <= 2 ^ 1024)%Q by (apply pow2_le; lia).
  lra.
Qed.

(** The rounding of the standard, for a positive number [x] given by a
    truncated mantissa, an exponent and a position: the result is zero, a
    positive double or infinity, it does not exceed a double that [x] does
    not exceed, and it is not below a double that [x] is not below. *)
Lemma binary_round_aux_spec (m e : Z) (l : location) (x : Q) :
  0 <= m ->
  situated (shr_record_of_loc m l) (x / 2 ^ e) ->
  e <= fexp (Zdigits2 m + e) ->
  good (binary_round_aux Ieee.prec Ieee.emax false m e l) /\
  (forall f, posfloat f -> (x <= val f)%Q ->
             SFleb (binary_round_aux Ieee.prec Ieee.emax false m e l) f = true) /\
  (forall f, posfloat f -> (val f <= x)%Q ->
             SFleb f (binary_round_aux Ieee.prec Ieee.emax false m e l) = true).
Proof.
  intros Hm Hs Hn.
  pose proof (Zdigits2_nonneg m) as Hd0.
  pose proof (Zdigits2_upper m Hm) as Hdu.
  set (e' := fexp (Zdigits2 m + e)) in *.
  assert (He' : e' = Z.max (Zdigits2 m + e - 53) (-1074)) by apply fexp_eq.
  set (n := e' - e).
  assert (Hn0 : 0 <= n) by (unfold n; lia).
  assert (P2n : 0 < 2 ^ n) by (apply Z.pow_pos_nonneg; lia).
  pose proof (shr_situated (shr_record_of_loc m l) e n (x / 2 ^ e)) as S.
  rewrite shr_m_of_loc in S. specialize (S Hm Hn0 Hs).
  unfold binary_round_aux.
  change (shr_fexp Ieee.prec Ieee.emax m e l) with (shr (shr_record_of_loc m l) e n).
  destruct (shr (shr_record_of_loc m l) e n) as [mrs' e1]. cbn [fst snd] in S.
  destruct S as [S1 [S2 S3]].
  assert (X : e1 = e') by (unfold n in S1; lia). clear S1. subst e1.
  pose proof (pow2_pos e) as Pe. pose proof (pow2_pos e') as Pe'.
  pose proof (pow2_pos n) as Pn.
  assert (Een : (2 ^ e' == 2 ^ e * 2 ^ n)%Q).
  { rewrite <- pow2_add. unfold n. now replace (e + (e' - e)) with e' by lia. }
  assert (S2' : situated mrs' (x / 2 ^ e')).
  { apply (situated_ext mrs' (x / 2 ^ e / 2 ^ n)%Q); [|exact S2].
    rewrite Een. field. lra. }
  clear S2.
  destruct (round_nearest_even_spec mrs' _ S2') as [B [Up Down]].
  set (m1 := round_nearest_even (shr_m mrs') (loc_of_shr_record mrs')) in *.
  assert (M0 : 0 <= shr_m mrs') by (rewrite S3; apply Z.div_pos; lia).
  assert (M53 : shr_m mrs' < 2 ^ 53).
  { rewrite S3. apply Z.div_lt_upper_bound; [exact P2n|].
    rewrite <- Z.pow_add_r by lia.
    assert (2 ^ Zdigits2 m <= 2 ^ (n + 53)) by (apply Z.pow_le_mono_r; unfold n; lia).
    lia. }
  assert (Mpos : m = 0 -> e' = -1074).
  { intros ->. cbn [Zdigits2] in *. lia. }
  assert (Mlow : 0 < m -> Zdigits2 m - 1 >= n ->
                 2 ^ (Zdigits2 m - 1 - n) <= shr_m mrs').
  { intros Hp Hge. rewrite S3. apply Z.div_le_lower_bound; [exact P2n|].
    rewrite <- Z.pow_add_r by lia.
    replace (n + (Zdigits2 m - 1 - n)) with (Zdigits2 m - 1) by lia.
    apply (Zdigits2_bounds m Hp). }
  assert (Hc : 0 < m1 -> e' = -1074 \/ 2 ^ 52 <= m1).
  { intros _. destruct (Z.eq_dec e' (-1074)) as [|Hne]; [now left|right].
    assert (Hp : 0 < m) by (destruct (Z.eq_dec m 0) as [Z|Z]; [specialize (Mpos Z)|]; lia).
    assert (n = Zdigits2 m - 53) by (unfold n; lia).
    specialize (Mlow Hp ltac:(lia)).
    replace (Zdigits2 m - 1 - n) with 52 in Mlow by lia. lia. }
  destruct (round_finish m1 e' ltac:(lia) ltac:(lia) Hc) as [M [E [EQ [HM [HV HC]]]]].
  rewrite EQ. cbn [shr_m]. clear EQ.
  (* the unbounded result against representable numbers *)
  assert (Hexp : forall mf ef, bounded Ieee.prec Ieee.emax mf ef = true ->
            (inject_Z m * 2 ^ e < 2 ^ (Zpos (digits2_pos mf) + ef))%Q -> e' <= ef).
  { intros mf ef Bf Hlt. destruct (bounded_inv _ _ Bf) as [Cf _].
    destruct (Z.eq_dec m 0) as [Z|Z].
    - rewrite (Mpos Z). rewrite fexp_eq in Cf. lia.
    - assert (Hp : 0 < m) by lia.
      destruct (Zdigits2_bounds m Hp) as [L _].
      assert (1 <= Zdigits2 m) by (destruct m; cbn; lia).
      rewrite Zle_Qle in L. rewrite <- pow2_Z in L by lia.
      assert (G : (2 ^ (Zdigits2 m - 1 + e) < 2 ^ (Zpos (digits2_pos mf) + ef))%Q).
      { rewrite pow2_add.
        assert (2 ^ (Zdigits2 m - 1) * 2 ^ e <= inject_Z m * 2 ^ e)%Q
          by (apply Qmult_le_compat_r; lra).
        lra. }
      apply Qpower_lt_compat_l_inv in G; [|reflexivity].
      rewrite <- Cf. unfold e'. apply fexp_mono. lia. }
  assert (Hfloor : (inject_Z m * 2 ^ e <= x)%Q).
  { pose proof (situated_floor _ _ Hs) as [F _]. rewrite shr_m_of_loc in F.
    assert (X : (x == x / 2 ^ e * 2 ^ e)%Q) by (field; lra).
    rewrite X. apply Qmult_le_compat_r; lra. }
  assert (Hk : forall mf ef, e' <= ef ->
            (inject_Z (Zpos mf) * 2 ^ ef
             == inject_Z (Zpos mf * 2 ^ (ef - e')) * 2 ^ e')%Q).
  { intros mf ef Hle. rewrite inject_Z_mult, <- pow2_Z by lia.
    rewrite <- Qmult_assoc, <- pow2_add. now replace (ef - e' + e') with ef by lia. }
  assert (UP : forall f, posfloat f -> (x <= val f)%Q ->
                 (inject_Z m1 * 2 ^ e' <= val f)%Q).
  { intros f Pf Hx. destruct (posfloat_exponent f Pf) as [mf [ef [-> [Bf _]]]].
    cbn [val] in *. destruct (mant_bounds mf ef) as [_ U].
    assert (Hle : e' <= ef) by (apply (Hexp mf ef Bf); lra).
    rewrite (Hk mf ef Hle) in *.
    assert (m1 <= Zpos mf * 2 ^ (ef - e')).
    { apply Up. apply Qle_shift_div_r; [exact Pe'|exact Hx]. }
    apply Qmult_le_compat_r; [|lra]. now rewrite <- Zle_Qle. }
  assert (DOWN : forall f, posfloat f -> (val f <= x)%Q ->
                 (val f <= inject_Z m1 * 2 ^ e')%Q).
  { intros f Pf Hx. destruct (posfloat_exponent f Pf) as [mf [ef [-> [Bf [Hef _]]]]].
    cbn [val] in *. destruct (Z_le_gt_dec e' ef) as [Hle|Hgt].
    - rewrite (Hk mf ef Hle) in *.
      assert (Zpos mf * 2 ^ (ef - e') <= m1).
      { apply Down. apply Qle_shift_div_l; [exact Pe'|exact Hx]. }
      apply Qmult_le_compat_r; [|lra]. now rewrite <- Zle_Qle.
    - destruct (bounded_inv _ _ Bf) as [Cf _].
      assert (Hp : 0 < m).
      { destruct (Z.eq_dec m 0) as [Z|Z]; [specialize (Mpos Z)|]; lia. }
      assert (Hlt : Zpos (digits2_pos mf) + ef < Zdigits2 m + e).
      { destruct (Z_lt_ge_dec (Zpos (digits2_pos mf) + ef) (Zdigits2 m + e)) as [|G];
          [assumption|].
        apply Z.ge_le in G. apply fexp_mono in G. fold e' in G. lia. }
      assert (Hge : Zdigits2 m - 1 >= n) by (unfold n; lia).
      specialize (Mlow Hp Hge).
      destruct (mant_bounds mf ef) as [_ U].
      assert (G1 : (2 ^ (Zpos (digits2_pos mf) + ef) <= 2 ^ (Zdigits2 m - 1 - n + e'))%Q)
        by (apply pow2_le; unfold n; lia).
      rewrite (pow2_add (Zdigits2 m - 1 - n) e') in G1.
      rewrite Zle_Qle in Mlow. rewrite <- pow2_Z in Mlow by lia.
      assert (G2 : (2 ^ (Zdigits2 m - 1 - n) * 2 ^ e' <= inject_Z (shr_m mrs') * 2 ^ e')%Q)
        by (apply Qmult_le_compat_r; lra).
      assert (G3 : (inject_Z (shr_m mrs') * 2 ^ e' <= inject_Z m1 * 2 ^ e')%Q).
      { apply Qmult_le_compat_r; [|lra]. rewrite <- Zle_Qle. lia. }
      lra. }
  destruct M as [|p|p]; [| |lia].
  - (* zero *)
    change (inject_Z 0) with 0%Q in HV.
    assert (V0 : (inject_Z m1 * 2 ^ e' == 0)%Q) by (rewrite <- HV; ring).
    split; [exact I|]. split.
    + intros f Pf _. destruct (posfloat_exponent f Pf) as [mf [ef [-> _]]]. reflexivity.
    + intros f Pf Hx. pose proof (val_pos f Pf). pose proof (DOWN f Pf Hx). lra.
  - specialize (HC ltac:(lia)). cbn [Zdigits2] in HC.
    change (Z.sub Ieee.emax Ieee.prec) with 971.
    destruct (Z.leb_spec E 971) as [HE|HE].
    + assert (PR : posfloat (S754_finite false p E)) by (now apply bounded_intro).
      split; [exact PR|]. split.
      * intros f Pf Hx. apply (leb_posfloat _ f PR Pf). cbn [val].
        rewrite HV. now apply UP.
      * intros f Pf Hx. apply (leb_posfloat f _ Pf PR). cbn [val].
        rewrite HV. now apply DOWN.
    + split; [exact I|]. split.
      * intros f Pf Hx. exfalso.
        pose proof (UP f Pf Hx) as G. pose proof (val_below_top f Pf) as T.
        destruct (mant_bounds p E) as [L _]. rewrite fexp_eq in HC.
        assert (2 ^ 1024 <= 2 ^ (Zpos (digits2_pos p) - 1 + E))%Q by (apply pow2_le; lia).
        lra.
      * intros f Pf _. destruct (posfloat_exponent f Pf) as [mf [ef [-> _]]]. reflexivity.
Qed.

(** *** Division *)
Lemma frac_cases (r b : Z) :
  0 <= r < b ->
  let t := (inject_Z r / inject_Z b)%Q in
  (r = 0 -> (t == 0)%Q) /\ (0 < r -> (0 < t)%Q) /\ (t < 1)%Q /\
  (2 * r < b -> (t < 1 # 2)%Q) /\ (2 * r = b -> (t == 1 # 2)%Q) /\
  (b < 2 * r -> (1 # 2 < t)%Q).
Proof.
  intros [H0 H1] t.
  assert (Pb : (0 < inject_Z b)%Q) by (change 0%Q with (inject_Z 0); rewrite <- Zlt_Qlt; lia).
  assert (Et : (t * inject_Z b == inject_Z r)%Q) by (unfold t; field; lra).
  repeat split.
  - intros ->. unfold t. change (inject_Z 0) with 0%Q. field. lra.
  - intro Hr. apply Qlt_shift_div_l; [exact Pb|].
    rewrite Qmult_0_l. change 0%Q with (inject_Z 0). rewrite <- Zlt_Qlt. lia.
  - apply Qlt_shift_div_r; [exact Pb|]. rewrite Qmult_1_l. rewrite <- Zlt_Qlt. lia.
  - intro H. apply Qlt_shift_div_r; [exact Pb|].
    assert (X : (inject_Z (2 * r) < inject_Z b)%Q) by (rewrite <- Zlt_Qlt; lia).
    rewrite inject_Z_mult in X. change (inject_Z 2) with 2%Q in X. lra.
  - intro H. assert (X : (inject_Z (2 * r) == inject_Z b)%Q) by (now rewrite H).
    rewrite inject_Z_mult in X. change (inject_Z 2) with 2%Q in X.
    unfold t. rewrite <- X. field.
    intro Z. rewrite Z in X. lra.
  - intro H. apply Qlt_shift_div_l; [exact Pb|].
    assert (X : (inject_Z b < inject_Z (2 * r))%Q) by (rewrite <- Zlt_Qlt; lia).
    rewrite inject_Z_mult in X. change (inject_Z 2) with 2%Q in X. lra.
Qed.

Lemma new_location_situated (q b r : Z) (y : Q) :
  0 <= r < b -> (y == inject_Z q + inject_Z r / inject_Z b)%Q ->
  situated (shr_record_of_loc q (new_location b r)) y.
Proof.
  intros Hr Hy. destruct (frac_cases r b Hr) as [T0 [T1 [T2 [T3 [T4 T5]]]]].
  set (t := (inject_Z r / inject_Z b)%Q) in *.
  unfold new_location, new_location_even, new_location_odd.
  destruct (Z.even b) eqn:Ev.
  - destruct (Z.eqb_spec r 0) as [Z|NZ].
    + cbn. specialize (T0 Z). lra.
    + specialize (T1 ltac:(lia)).
      destruct (Z.compare_spec (2 * r) b) as [E|L|G]; cbn.
      * specialize (T4 E). lra.
      * specialize (T3 L). lra.
      * specialize (T5 G). lra.
  - destruct (Z.eqb_spec r 0) as [Z|NZ].
    + cbn. specialize (T0 Z). lra.
    + specialize (T1 ltac:(lia)).
      assert (Od : Z.odd b = true) by (rewrite <- Z.negb_even, Ev; reflexivity).
      apply Z.odd_spec in Od. destruct Od as [k Hk].
      destruct (Z.compare_spec (2 * r + 1) b) as [E|L|G]; cbn.
      * specialize (T3 ltac:(lia)). lra.
      * specialize (T3 ltac:(lia)). lra.
      * specialize (T5 ltac:(lia)). lra.
Qed.

(** The quotient of two positive doubles is the rounding of the exact
    quotient: it lies on the same side of every double as the exact
    quotient. *)
Lemma div_spec (x y : spec_float) :
  posfloat x -> posfloat y ->
  good (Ieee.div x y) /\
  (forall f, posfloat f -> (val x / val y <= val f)%Q -> SFleb (Ieee.div x y) f = true) /\
  (forall f, posfloat f -> (val f <= val x / val y)%Q -> SFleb f (Ieee.div x y) = true).
Proof.
  intros Px Py.
  destruct (posfloat_exponent x Px) as [m1 [e1 [-> _]]].
  destruct (posfloat_exponent y Py) as [m2 [e2 [-> _]]].
  unfold Ieee.div. cbn [SFdiv xorb val]. unfold SFdiv_core_binary.
  change (SpecFloat.fexp Ieee.prec Ieee.emax) with fexp.
  cbn [Zdigits2].
  set (d1 := Zpos (digits2_pos m1)). set (d2 := Zpos (digits2_pos m2)).
  set (e' := Z.min (fexp (d1 + e1 - (d2 + e2))) (e1 - e2)).
  set (s := e1 - e2 - e').
  assert (Hs : 0 <= s) by (unfold s, e'; lia).
  set (m' := match s with Z0 => Zpos m1 | Zpos _ => Z.shiftl (Zpos m1) s | Zneg _ => 0 end).
  assert (Em : m' = Zpos m1 * 2 ^ s).
  { unfold m'. destruct s as [|p|p]; [lia | | lia]. now rewrite Z.shiftl_mul_pow2 by lia. }
  clearbody m'.
  pose proof (Z_div_mod m' (Zpos m2) ltac:(lia)) as DM.
  destruct (Z.div_eucl m' (Zpos m2)) as [q r]. destruct DM as [DM Hr].
  assert (P2s : 0 < 2 ^ s) by (apply Z.pow_pos_nonneg; lia).
  assert (Hq : 0 <= q) by nia.
  destruct (digits2_bounds m1) as [L1 U1]. destruct (digits2_bounds m2) as [L2 U2].
  fold d1 in L1, U1. fold d2 in L2, U2.
  assert (Hd1 : 1 <= d1) by (unfold d1; lia). assert (Hd2 : 1 <= d2) by (unfold d2; lia).
  apply binary_round_aux_spec.
  - exact Hq.
  - apply new_location_situated; [lia|].
    pose proof (pow2_pos e1). pose proof (pow2_pos e2). pose proof (pow2_pos e').
    assert (P2 : (0 < inject_Z (Zpos m2))%Q) by reflexivity.
    assert (E1 : (2 ^ e1 == 2 ^ s * 2 ^ e2 * 2 ^ e')%Q).
    { rewrite <- !pow2_add. unfold s. now replace (e1 - e2 - e' + e2 + e') with e1 by lia. }
    assert (E2 : (inject_Z (Zpos m1) * 2 ^ s
                  == inject_Z (Zpos m2) * inject_Z q + inject_Z r)%Q).
    { rewrite pow2_Z by lia. rewrite <- !inject_Z_mult, <- inject_Z_plus.
      now rewrite <- DM, Em. }
    rewrite E1.
    setoid_replace (inject_Z (Zpos m1) * (2 ^ s * 2 ^ e2 * 2 ^ e')
                    / (inject_Z (Zpos m2) * 2 ^ e2) / 2 ^ e')%Q
      with (inject_Z (Zpos m1) * 2 ^ s / inject_Z (Zpos m2))%Q by (field; lra).
    rewrite E2. field. lra.
  - assert (D : d1 + s - d2 <= Zdigits2 q).
    { pose proof (Zdigits2_nonneg q).
      destruct (Z_le_gt_dec (d1 + s - d2) 0) as [|G]; [lia|].
      assert (X : 2 ^ (d1 - 1 + s - d2) <= q).
      { assert (q = m' / Zpos m2) as ->.
        { apply Z.div_unique with (r := r); [lia | exact DM]. }
        apply Z.div_le_lower_bound; [lia|].
        assert (Y : Zpos m2 * 2 ^ (d1 - 1 + s - d2) <= 2 ^ d2 * 2 ^ (d1 - 1 + s - d2)).
        { apply Z.mul_le_mono_nonneg_r; [apply Z.pow_nonneg|]; lia. }
        rewrite <- Z.pow_add_r in Y by lia.
        replace (d2 + (d1 - 1 + s - d2)) with (d1 - 1 + s) in Y by lia.
        rewrite Z.pow_add_r in Y by lia.
        rewrite Em. nia. }
      pose proof (Zdigits2_ge q (d1 - 1 + s - d2) ltac:(lia) X). lia. }
    assert (F : fexp (d1 + e1 - (d2 + e2)) <= fexp (Zdigits2 q + e')).
    { apply fexp_mono. unfold s in D. lia. }
    unfold e' at 1. lia.
Qed.

(** *** Multiplication *)




(** *** Whole numbers and [Math.ceil] *)




End Rounding.

Section Doubles.
Local Open Scope Z_scope.

(** *** Positive doubles in the resize stage *)

Lemma json_posfloat (a : Ieee.double) : posfloat a -> Ieee.json a = a.
Proof. destruct a as [| | |[|] m e]; cbn; try contradiction; reflexivity. Qed.

Lemma truthy_posfloat (a : Ieee.double) : posfloat a -> Ieee.truthy a = true.
Proof. destruct a as [| | |[|] m e]; cbn; try contradiction; reflexivity. Qed.

Lemma json_size_posfloat (s : Double.size) :
  posfloat (Double.width s) -> posfloat (Double.height s) -> Double.json s = s.
Proof.
  intros W H. unfold Double.json. rewrite (json_posfloat _ W), (json_posfloat _ H).
  now destruct s.
Qed.

Lemma displayGiven_posfloat (d : Double.size) :
  posfloat (Double.width d) -> posfloat (Double.height d) ->
  Double.displayGiven (Some d) = Some d.
Proof.
  intros W H. unfold Double.displayGiven.
  now rewrite (truthy_posfloat _ W), (truthy_posfloat _ H).
Qed.

Lemma good_cases (r : spec_float) :
  good r -> r = S754_zero false \/ r = S754_infinity false \/ posfloat r.
Proof.
  destruct r as [[|]|[|]| |[|] m e]; cbn; intro G; try contradiction; auto.
Qed.

Lemma eqb_good_refl (r : spec_float) : good r -> Ieee.eqb r r = true.
Proof.
  intro G. destruct (good_cases r G) as [->|[->|Pr]]; [reflexivity..|].
  now apply (eqb_posfloat r r Pr Pr).
Qed.

Lemma eqb_posfloat_l (f g : spec_float) : posfloat f -> Ieee.eqb f g = true -> g = f.
Proof.
  intros Pf. destruct (posfloat_exponent f Pf) as [m1 [e1 [-> _]]].
  unfold Ieee.eqb, SFeqb.
  destruct g as [[|]|[|]| |[|] m2 e2]; cbn [SFcompare]; try discriminate.
  destruct (Z.compare_spec e1 e2) as [E|L|G]; try discriminate.
  change (Pos.compare_cont Eq m1 m2) with (Pos.compare m1 m2).
  destruct (Pos.compare_spec m1 m2) as [E'|L|G]; try discriminate.
  intros _. now subst.
Qed.




(** Sizes with different aspect ratios differ in a dimension. *)
Lemma aspects_differ (cw ch dw dh : Ieee.double) :
  posfloat dw -> posfloat dh ->
  Ieee.eqb (Ieee.div cw ch) (Ieee.div dw dh) = false ->
  Ieee.neqb dw cw || Ieee.neqb dh ch = true.
Proof.
  intros Pw Ph Hne. unfold Ieee.neqb.
  destruct (SFeqb dw cw) eqn:Ew; [|reflexivity].
  destruct (SFeqb dh ch) eqn:Eh; [|reflexivity].
  apply (eqb_posfloat_l dw cw Pw) in Ew. apply (eqb_posfloat_l dh ch Ph) in Eh.
  subst cw ch. destruct (div_spec dw dh Pw Ph) as [G _].
  rewrite (eqb_good_refl _ G) in Hne. discriminate Hne.
Qed.






End Doubles.

(** ** Mode [contain] in double precision *)






(** ** The tie-break in double precision *)

Section TieDouble.
Context `{P : Double.Pixels}.

Lemma Shared_resize_tie_double
  (st : Double.Shared.module_state) (d : Double.size) (pm : Double.PixelMap) :
  let c := Double.d_size (Double.Shared.newOptions st) in
  posfloat (Double.width d) -> posfloat (Double.height d) ->
  Double.d_displaySize (Double.Shared.newOptions st) = Some d ->
  Ieee.eqb (Ieee.div (Double.width c) (Double.height c))
           (Ieee.div (Double.width d) (Double.height d)) = true ->
  Double.Shared.resize st pm
  = match Double.scale pm (Ieee.div (Double.width d) (Double.width c))
                          (Ieee.div (Double.height d) (Double.height c)) with
    | Some pm' => Some (pm', Double.Shared.set_resizeMode st (Some "stretch"))
    | None => None
    end.
Proof.
  intros c Pw Ph Hd He. unfold Double.Shared.resize.
  rewrite Hd, (displayGiven_posfloat d Pw Ph), (json_size_posfloat d Pw Ph).
  cbv zeta. fold c. rewrite He. reflexivity.
Qed.



End TieDouble.


(** ** Default resize mode in double precision *)

Section DefaultDouble.
Context `{P : Double.Pixels}.

Lemma store_fields_double
  (uri : string) (options : Double.CropArgs) (o : Double.offset) (s : Double.size)
  (q : Ieee.double) :
  Double.a_resizeMode options = None ->
  let st := Double.Shared.store Double.Shared.initial uri options o s q in
  Double.d_size (Double.Shared.newOptions st) = s /\
  Double.d_displaySize (Double.Shared.newOptions st) = Double.a_displaySize options /\
  Double.d_resizeMode (Double.Shared.newOptions st) = Some "cover".
Proof.
  intros Hm. unfold Double.Shared.store. cbn. rewrite Hm. cbn.
  destruct (Double.a_displaySize options); repeat split; reflexivity.
Qed.

Lemma Shared_TargetRect_cover_double (st : Double.Shared.module_state) (d : Double.size) :
  Double.d_displaySize (Double.Shared.newOptions st) = Some d ->
  Double.d_resizeMode (Double.Shared.newOptions st) = Some "cover" ->
  exists target, Double.Shared.TargetRect st = Some target.
Proof.
  intros Hd Hm. unfold Double.Shared.TargetRect. rewrite Hd, Hm.
  cbn [str_is String.eqb Ascii.eqb Bool.eqb]. eexists. reflexivity.
Qed.

(** C9 (as amended).  A request that passes validation and omits
    [resizeMode], handled by the variant with module-scope state on its
    initial state.  With a finite positive display size whose aspect
    ratio differs under [===] from the aspect ratio of the crop, the
    stored mode is [cover] and the pipeline runs it: uniform scale by the
    larger ratio, re-measure, secondary crop.  When the two aspect ratios
    are equal under [===] the mode is [stretch].  With no display size
    the resize stage does nothing and consults no mode, in both
    variants. *)
Theorem omitted_mode_defaults_to_cover
  (uri : string) (options : Double.CropArgs) (o : Double.offset) (s : Double.size)
  (q : Ieee.double) (pm : Double.PixelMap) :
  Double.validate uri options = Double.Accept o s q ->
  Double.a_resizeMode options = None ->
  let st := Double.Shared.store Double.Shared.initial uri options o s q in
  let aspect := Ieee.div (Double.width s) (Double.height s) in
  (forall d, Double.a_displaySize options = Some d ->
     posfloat (Double.width d) -> posfloat (Double.height d) ->
     Ieee.eqb aspect (Ieee.div (Double.width d) (Double.height d)) = false ->
     let ratio := Ieee.max (Ieee.div (Double.width d) (Double.width s))
                           (Ieee.div (Double.height d) (Double.height s)) in
     Double.d_resizeMode (Double.Shared.newOptions st) = Some "cover" /\
     forall pm1 info,
       Double.scale pm ratio ratio = Some pm1 ->
       Double.getImageInfo pm1 = Some info ->
       let st' := Double.Shared.set_resizeScaleSize st info in
       exists target : Double.Region,
         Double.Shared.TargetRect st' = Some target /\
         Double.Shared.resize st pm
         = Some (match Double.crop pm1 target with
                 | Some pm2 => pm2
                 | None => pm1
                 end, st') /\
         Double.d_resizeMode (Double.Shared.newOptions st') = Some "cover") /\
  (forall d, Double.a_displaySize options = Some d ->
     posfloat (Double.width d) -> posfloat (Double.height d) ->
     Ieee.eqb aspect (Ieee.div (Double.width d) (Double.height d)) = true ->
     Double.Shared.resize st pm
     = match Double.scale pm (Ieee.div (Double.width d) (Double.width s))
                             (Ieee.div (Double.height d) (Double.height s)) with
       | Some pm' => Some (pm', Double.Shared.set_resizeMode st (Some "stretch"))
       | None => None
       end) /\
  (Double.a_displaySize options = None ->
     Double.Shared.resize st pm = Some (pm, st) /\
     Double.Scoped.resize (Double.Scoped.request uri options o s q) pm
     = Some (pm, Double.Scoped.request uri options o s q)).
Proof.
  intros _ Hm st aspect.
  destruct (store_fields_double uri options o s q Hm) as [Fs [Fd Fm]].
  fold st in Fs, Fd, Fm.
  split; [|split].
  - intros d Hd Pw Ph Hne ratio. split; [exact Fm|].
    intros pm1 info S1 I1 st'.
    assert (Fd' : Double.d_displaySize (Double.Shared.newOptions st') = Some d)
      by (cbn [st' Double.Shared.set_resizeScaleSize Double.Shared.newOptions]; congruence).
    assert (Fm' : Double.d_resizeMode (Double.Shared.newOptions st') = Some "cover")
      by exact Fm.
    destruct (Shared_TargetRect_cover_double st' d Fd' Fm') as [target HT].
    exists target. split; [exact HT|]. split; [|exact Fm'].
    unfold Double.Shared.resize.
    rewrite Fd, Hd, (displayGiven_posfloat d Pw Ph), (json_size_posfloat d Pw Ph), Fs.
    cbv zeta. fold aspect. rewrite Hne, Fm.
    cbn [str_is String.eqb Ascii.eqb Bool.eqb].
    rewrite (aspects_differ _ _ _ _ Pw Ph Hne).
    fold ratio. rewrite S1, I1. fold st'. rewrite HT.
    destruct (Double.crop pm1 target); reflexivity.
  - intros d Hd Pw Ph He.
    pose proof (Shared_resize_tie_double st d pm Pw Ph) as T. cbv zeta in T.
    rewrite Fs in T. apply T; [congruence | exact He].
  - intro Hd. split.
    + unfold Double.Shared.resize. now rewrite Fd, Hd.
    + unfold Double.Scoped.resize. cbn [Double.Scoped.request Double.d_displaySize].
      now rewrite Hd.
Qed.

End DefaultDouble.

Lemma omitted_mode_defaults_to_cover_witness :
  let P := Double.Sim.platform in
  let pm : @Double.PixelMap P := whole_size 10 20 in
  let o := Double.mkOffset Ieee.zero Ieee.zero in
  let c := whole_size 10 20 in
  let q := Ieee.of_Z 90 in
  (let options := double_args c (Some (whole_size 10 10)) in
   let st := Double.Shared.store Double.Shared.initial "a.png" options o c q in
   Double.d_resizeMode (Double.Shared.newOptions st) = Some "cover" /\
   exists (st' : Double.Shared.module_state) (target : Double.Region),
     Double.Shared.TargetRect st' = Some target /\
     Double.Shared.resize st pm
     = Some (match Double.crop (whole_size 10 20) target with
             | Some pm2 => pm2
             | None => whole_size 10 20
             end, st') /\
     Double.d_resizeMode (Double.Shared.newOptions st') = Some "cover") /\
  (let options := double_args c (Some (whole_size 5 10)) in
   let st := Double.Shared.store Double.Shared.initial "a.png" options o c q in
   Double.Shared.resize st pm
   = match Double.scale pm (Ieee.div (Ieee.of_Z 5) (Ieee.of_Z 10))
                           (Ieee.div (Ieee.of_Z 10) (Ieee.of_Z 20)) with
     | Some pm' => Some (pm', Double.Shared.set_resizeMode st (Some "stretch"))
     | None => None
     end) /\
  (let options := double_args c None in
   let st := Double.Shared.store Double.Shared.initial "a.png" options o c q in
   Double.Shared.resize st pm = Some (pm, st) /\
   Double.Scoped.resize (Double.Scoped.request "a.png" options o c q) pm
   = Some (pm, Double.Scoped.request "a.png" options o c q)).
Proof.
  intros P pm o c q. split; [|split].
  - intros options st.
    destruct (@omitted_mode_defaults_to_cover P "a.png" options o c q pm
                eq_refl eq_refl) as [H _].
    destruct (H (whole_size 10 10) eq_refl) as [Hm Hr]; try reflexivity.
    split; [exact Hm|].
    destruct (Hr (whole_size 10 20) (whole_size 10 20) eq_refl eq_refl)
      as [target [HT [HR HM]]].
    eexists. exists target. split; [exact HT|]. split; [exact HR|exact HM].
  - intros options st.
    destruct (@omitted_mode_defaults_to_cover P "a.png" options o c q pm
                eq_refl eq_refl) as [_ [H _]].
    apply (H (whole_size 5 10)); reflexivity.
  - intros options st.
    destruct (@omitted_mode_defaults_to_cover P "a.png" options o c q pm
                eq_refl eq_refl) as [_ [_ H]].
    apply H. reflexivity.
Defined.

(** C9, the claim as stated fails: a request with the crop size 20 x 10
    and the display size 10 x 5 that omits [resizeMode] passes validation
    and is handled in mode [stretch], not [cover], by the variant with
    module-scope state on its initial state: the two aspect ratios are
    the same double 2. *)
Lemma omitted_mode_equal_aspect_is_stretch :
  let P := Double.Sim.platform in
  let c := whole_size 20 10 in
  let o := Double.mkOffset Ieee.zero Ieee.zero in
  let options := double_args c (Some (whole_size 10 5)) in
  let st := Double.Shared.store Double.Shared.initial "a.png" options o c (Ieee.of_Z 90) in
  Double.a_resizeMode options = None /\
  Double.validate "a.png" options = Double.Accept o c (Ieee.of_Z 90) /\
  Double.d_resizeMode (Double.Shared.newOptions st) = Some "cover" /\
  exists st',
    @Double.Shared.imageEditor P st (whole_size 40 40) = Some (whole_size 10 5, st') /\
    Double.d_resizeMode (Double.Shared.newOptions st') = Some "stretch" /\
    Double.d_resizeMode (Double.Shared.newOptions st') <> Some "cover".
Proof.
  intros P c o options st.
  split; [reflexivity|]. split; [vm_compute; reflexivity|]. split; [reflexivity|].
  exists (Double.Shared.set_resizeMode st (Some "stretch")).
  split; [vm_compute; reflexivity|]. split; [reflexivity | discriminate].
Qed.

(** * Further properties *)

(** ** The resize stage never fails *)

(** Case analysis on every test of a goal. *)
Ltac case_ifs :=
  repeat first
    [ progress cbv beta iota zeta
    | match goal with
      | |- context [if ?b then _ else _] => destruct b
      end ].

Lemma Shared_TargetRect_total (st : Shared.module_state) (d : size) :
  d_displaySize (Shared.newOptions st) = Some d ->
  exists r, Shared.TargetRect st = Some r.
Proof.
  intro Hd. unfold Shared.TargetRect. rewrite Hd.
  case_ifs; eexists; reflexivity.
Qed.

Lemma Scoped_TargetRect_total (o : ImageCropData) (d : size) (scaled : option size) :
  d_displaySize o = Some d ->
  (str_is (d_resizeMode o) "cover" = true -> scaled <> None) ->
  exists r, Scoped.TargetRect o scaled = Some r.
Proof.
  intros Hd Hs. unfold Scoped.TargetRect. rewrite Hd. cbv zeta.
  destruct (str_is _ "cover").
  { destruct scaled as [s|]; [|now exfalso; apply Hs].
    case_ifs; eexists; reflexivity. }
  case_ifs; eexists; reflexivity.
Qed.

Lemma same_but_mode_refl (o : ImageCropData) : same_but_mode o o.
Proof. unfold same_but_mode. tauto. Qed.

Section Shape.
Context `{P : Platform}.

Lemma Shared_resize_shape (st : Shared.module_state) (pm : PixelMap) :
  exists pm' st' tr,
    Shared.resize st pm = Some (pm', st', tr) /\
    same_but_mode (Shared.newOptions st) (Shared.newOptions st') /\
    (d_resizeMode (Shared.newOptions st') = d_resizeMode (Shared.newOptions st) \/
     d_resizeMode (Shared.newOptions st') = Some "stretch") /\
    forallb pixel_event tr = true.
Proof.
  unfold Shared.resize.
  destruct (displayGiven _) as [d|] eqn:G.
  2:{ exists pm, st, [].
      split; [reflexivity|]. split; [apply same_but_mode_refl|].
      split; [now left | reflexivity]. }
  apply displayGiven_Some in G. cbv zeta.
  set (st1 := if num_eq _ _ then Shared.set_resizeMode st (Some "stretch") else st).
  assert (S1 : same_but_mode (Shared.newOptions st) (Shared.newOptions st1) /\
               (d_resizeMode (Shared.newOptions st1) = d_resizeMode (Shared.newOptions st) \/
                d_resizeMode (Shared.newOptions st1) = Some "stretch") /\
               d_displaySize (Shared.newOptions st1) = Some d).
  { unfold st1. destruct (num_eq _ _).
    - cbn. unfold same_but_mode. cbn. tauto.
    - split; [apply same_but_mode_refl|]. split; [now left | exact G]. }
  destruct S1 as [Sm [Smode Sd]]. clearbody st1.
  destruct (str_is _ "stretch").
  { do 3 eexists. split; [reflexivity|]. split; [exact Sm|]. split; [exact Smode | reflexivity]. }
  destruct (str_is _ "cover").
  - destruct (num_neq _ _ || num_neq _ _).
    + set (pm1 := scale pm _ _).
      set (st2 := Shared.set_resizeScaleSize st1 (getImageInfo pm1)).
      destruct (Shared_TargetRect_total st2 d Sd) as [r Hr]. rewrite Hr.
      destruct (crop pm1 r); do 3 eexists;
        (split; [reflexivity|]); (split; [exact Sm|]);
        (split; [exact Smode | reflexivity]).
    + destruct (Shared_TargetRect_total st1 d Sd) as [r Hr]. rewrite Hr.
      destruct (crop pm r); do 3 eexists;
        (split; [reflexivity|]); (split; [exact Sm|]);
        (split; [exact Smode | reflexivity]).
  - destruct (Shared_TargetRect_total st1 d Sd) as [r Hr]. rewrite Hr.
    do 3 eexists. split; [reflexivity|]. split; [exact Sm|].
    split; [exact Smode | reflexivity].
Qed.

End Shape.

Section Shape2.
Context `{P : Platform}.

Lemma Scoped_resize_shape (o : ImageCropData) (pm : PixelMap) :
  exists pm' o' tr,
    Scoped.resize o pm = Some (pm', o', tr) /\
    same_but_mode o o' /\
    (d_resizeMode o' = d_resizeMode o \/ d_resizeMode o' = Some "stretch") /\
    forallb pixel_event tr = true.
Proof.
  unfold Scoped.resize.
  destruct (displayGiven _) as [d|] eqn:G.
  2:{ exists pm, o, [].
      split; [reflexivity|]. split; [apply same_but_mode_refl|].
      split; [now left | reflexivity]. }
  apply displayGiven_Some in G. cbv zeta.
  set (o1 := if num_eq _ _ then Scoped.set_resizeMode o (Some "stretch") else o).
  assert (S1 : same_but_mode o o1 /\
               (d_resizeMode o1 = d_resizeMode o \/ d_resizeMode o1 = Some "stretch") /\
               d_displaySize o1 = Some d).
  { unfold o1. destruct (num_eq _ _).
    - cbn. unfold same_but_mode. cbn. tauto.
    - split; [apply same_but_mode_refl|]. split; [now left | exact G]. }
  destruct S1 as [Sm [Smode Sd]]. clearbody o1.
  destruct (str_is _ "stretch").
  { do 3 eexists. split; [reflexivity|]. split; [exact Sm|].
    split; [exact Smode | reflexivity]. }
  destruct (str_is _ "cover") eqn:C.
  - destruct (num_neq _ _ || num_neq _ _).
    + set (pm1 := scale pm _ _).
      destruct (Scoped_TargetRect_total o1 d (Some (getImageInfo pm1)) Sd) as [r Hr];
        [discriminate|]. rewrite Hr.
      destruct (crop pm1 r); do 3 eexists;
        (split; [reflexivity|]); (split; [exact Sm|]);
        (split; [exact Smode | reflexivity]).
    + destruct (Scoped_TargetRect_total o1 d (Some d) Sd) as [r Hr];
        [discriminate|]. rewrite Hr.
      destruct (crop pm r); do 3 eexists;
        (split; [reflexivity|]); (split; [exact Sm|]);
        (split; [exact Smode | reflexivity]).
  - destruct (Scoped_TargetRect_total o1 d None Sd) as [r Hr];
      [rewrite C; discriminate|]. rewrite Hr.
    do 3 eexists. split; [reflexivity|]. split; [exact Sm|].
    split; [exact Smode | reflexivity].
Qed.

End Shape2.

(** ** Traces *)

Lemma packings_app (a b : list event) : packings (a ++ b) = packings a ++ packings b.
Proof.
  induction a as [|e a IH]; [reflexivity|].
  destruct e; cbn; rewrite ?IH; reflexivity.
Qed.

Lemma packings_pixel (tr : list event) :
  forallb pixel_event tr = true -> packings tr = [].
Proof.
  induction tr as [|e tr IH]; [reflexivity|].
  cbn. rewrite andb_true_iff. intros [He Ht].
  destruct e; try discriminate He; cbn; auto.
Qed.

Section Traces.
Context `{P : Platform}.

Lemma primaryCrop_packings (o : offset) (s : size) (data : string) :
  packings (snd (primaryCrop o s data)) = [].
Proof.
  unfold primaryCrop. cbv zeta.
  destruct (crop _ _), (exceeds _ _ _); reflexivity.
Qed.

Lemma Shared_persist_facts (st : Shared.module_state) (w : world) (pm : PixelMap) :
  let r := Shared.persist st w pm in
  res_uri (proj3_1 r) = fileUriOf (w_now w) (d_format (Shared.newOptions st)) /\
  packings (proj3_3 r) = [packQuality (d_quality (Shared.newOptions st))] /\
  w_now (proj3_2 r) = w_now w.
Proof.
  unfold Shared.persist. cbv zeta.
  destruct (packing _ _ _) as [data|]; [destruct (writeSync _ _ _) as [[fs' n]|]|];
    (split; [reflexivity|]); (split; [|reflexivity]);
    cbn [proj3_3 snd]; rewrite !packings_app; cbn;
    case_ifs; reflexivity.
Qed.

End Traces.

(** ** Accepted requests *)

Lemma validate_accept (uri : string) (options : CropArgs)
  (o : offset) (s : size) (q : number) :
  validate uri options = Accept o s q ->
  uri <> "" /\
  a_offset options = Some (mkOffsetArg (Some (x o)) (Some (y o))) /\
  a_size options = Some s /\
  ~ width s == 0 /\ ~ height s == 0 /\
  q = qualityPercent (a_quality options) /\ 0 <= q /\ q <= 100.
Proof.
  unfold validate. cbv zeta.
  destruct (truthy_str uri) eqn:U; cbn [negb]; [|discriminate].
  destruct (a_offset options) as [[[ox|] [oy|]]|];
    destruct (a_size options) as [s'|]; cbn [arg_x arg_y]; try discriminate.
  destruct (truthy_num (width s')) eqn:Tw; cbn [negb orb]; [|discriminate].
  destruct (truthy_num (height s')) eqn:Th; cbn [negb orb]; [|discriminate].
  destruct (num_gt _ 100 || num_lt _ 0) eqn:Q; [discriminate|].
  intro E. injection E as <- <- <-.
  apply orb_false_iff in Q. destruct Q as [Q1 Q2].
  unfold num_gt, num_lt in Q1, Q2. rewrite negb_false_iff in Q1, Q2.
  apply Qle_bool_iff in Q1, Q2.
  apply truthy_num_true in Tw, Th.
  split; [intro E; apply truthy_str_false in E; congruence|].
  repeat (split; [solve [reflexivity | assumption]|]). assumption.
Qed.

Section Accepted.
Context `{P : Platform}.

Lemma getUriBuffer_facts (uri : string) :
  fst (Shared.getUriBuffer uri) = uri /\ packings (snd (Shared.getUriBuffer uri)) = [].
Proof.
  unfold Shared.getUriBuffer. case_ifs; split; reflexivity.
Qed.

Lemma Shared_imageEditor_shape (data : string) (st : Shared.module_state) (w : world) :
  exists res st' w' tr,
    Shared.imageEditor data st w = (Some res, st', w', tr) /\
    res_uri res = fileUriOf (w_now w) (d_format (Shared.newOptions st)) /\
    same_but_mode (Shared.newOptions st) (Shared.newOptions st') /\
    (d_resizeMode (Shared.newOptions st') = d_resizeMode (Shared.newOptions st) \/
     d_resizeMode (Shared.newOptions st') = Some "stretch") /\
    packings tr = [packQuality (d_quality (Shared.newOptions st))] /\
    w_now w' = w_now w.
Proof.
  unfold Shared.imageEditor.
  pose proof (primaryCrop_packings (d_offset (Shared.newOptions st))
                (d_size (Shared.newOptions st)) data) as T1.
  destruct (primaryCrop _ _ data) as [pm1 tr1]. cbn [snd] in T1.
  destruct (Shared_resize_shape st pm1) as [pm2 [st' [tr2 [R [Sm [Smode Px]]]]]].
  rewrite R.
  pose proof (Shared_persist_facts st' w pm2) as [U [K N]].
  destruct (Shared.persist st' w pm2) as [[res w'] tr3].
  cbn [proj3_1 proj3_2 proj3_3 fst snd] in U, K, N.
  exists res, st', w', (tr1 ++ tr2 ++ tr3).
  pose proof Sm as [Eo [Es [Ed [Eq [Ef Ei]]]]].
  split; [reflexivity|]. split; [now rewrite Ef|].
  split; [split; [|split; [|split; [|split; [|split]]]]; congruence|].
  split; [exact Smode|]. split; [|exact N].
  rewrite !packings_app, T1, (packings_pixel _ Px), K, Eq. reflexivity.
Qed.

End Accepted.

Section Accepted2.
Context `{P : Platform}.

Lemma Shared_cropImage_accepted
  (uri : string) (options : CropArgs) (o : offset) (s : size) (q : number)
  (st : Shared.module_state) (w : world) :
  validate uri options = Accept o s q ->
  let st0 := Shared.store st uri options o s q in
  exists st' w' tr,
    Shared.cropImage uri options st w
    = (Returned (Some (fileUriOf (w_now w) (requestFormat uri (a_format options)))),
       st', w', tr) /\
    same_but_mode (Shared.newOptions st0) (Shared.newOptions st') /\
    (d_resizeMode (Shared.newOptions st') = d_resizeMode (Shared.newOptions st0) \/
     d_resizeMode (Shared.newOptions st') = Some "stretch") /\
    packings tr = [packQuality (Some q)] /\
    w_now w' = w_now w.
Proof.
  intros V st0. unfold Shared.cropImage. rewrite V. fold st0.
  destruct (getUriBuffer_facts uri) as [B T0].
  destruct (Shared.getUriBuffer uri) as [buffer tr0]. cbn [fst snd] in B, T0.
  destruct (Shared_imageEditor_shape buffer st0 w)
    as [res [st' [w' [tr [E [U [Sm [Smode [K N]]]]]]]]].
  rewrite E. exists st', w', (tr0 ++ tr).
  split; [now rewrite U|]. split; [exact Sm|]. split; [exact Smode|].
  split; [|exact N]. rewrite packings_app, T0, K. reflexivity.
Qed.

End Accepted2.

(** ** Quality *)

Lemma floor_percent_range (v : number) :
  (0 <= Math.floor (v * 100) /\ Math.floor (v * 100) <= 100)
  <-> (0 <= v /\ v < 101 # 100).
Proof.
  unfold Math.floor.
  pose proof (Qfloor_le (v * 100)) as Lo.
  pose proof (Qlt_floor (v * 100)) as Hi.
  rewrite inject_Z_plus in Hi.
  split; intros [A B].
  - split.
    + assert (0 <= v * 100) by (apply (Qle_trans _ _ _ A Lo)). lra.
    + assert (v * 100 < 101).
      { apply (Qlt_le_trans _ _ _ Hi).
        setoid_replace 101 with (100 + inject_Z 1) by reflexivity.
        now apply Qplus_le_l. }
      lra.
  - split.
    + assert (L0 : (Qfloor 0 <= Qfloor (v * 100))%Z) by (apply Qfloor_resp_le; lra).
      change (Qfloor 0) with 0%Z in L0. rewrite Zle_Qle in L0. exact L0.
    + assert (L : inject_Z (Qfloor (v * 100)) < inject_Z 101).
      { apply (Qle_lt_trans _ _ _ Lo). change (inject_Z 101) with 101. lra. }
      rewrite <- Zlt_Qlt in L.
      assert (L' : (Qfloor (v * 100) <= 100)%Z) by lia.
      rewrite Zle_Qle in L'. exact L'.
Qed.

Lemma quality_in_range (v : number) :
  ~ quality_out_of_range (Some v) <-> (0 <= v /\ v < 101 # 100).
Proof.
  rewrite <- floor_percent_range. cbn [quality_out_of_range]. split.
  - intro H. split.
    + apply Qnot_lt_le. intro L. apply H. now left.
    + apply Qnot_lt_le. intro L. apply H. now right.
  - intros [A B] [L|L].
    + exact (Qlt_not_le _ _ L A).
    + exact (Qlt_not_le _ _ L B).
Qed.

(** X2.  For a request with a source reference, an offset with both keys
    and a size with non-zero dimensions, a supplied quality [v] passes the
    guards of [cropImage] exactly when [0 <= v < 1.01]: qualities above 1
    and below 1.01 are accepted. *)
Theorem quality_accepted_below_101_percent
  (uri : string) (options : CropArgs) (ox oy v : number) (s : size) :
  uri <> "" ->
  a_offset options = Some (mkOffsetArg (Some ox) (Some oy)) ->
  a_size options = Some s ->
  ~ width s == 0 -> ~ height s == 0 ->
  a_quality options = Some v ->
  (exists q, validate uri options = Accept (mkOffset ox oy) s q)
  <-> (0 <= v /\ v < 101 # 100).
Proof.
  intros Hu Ho Hs Hw Hh Hq.
  rewrite <- quality_in_range, <- Hq.
  pose proof (validate_reject uri options) as R.
  unfold invalid_request, lacks_offset_or_size, size_with in R.
  rewrite Ho, Hs in R. cbn [arg_x arg_y] in R.
  split.
  - intros [q V] Out. destruct (proj2 R) as [m Hm]; [tauto|]. congruence.
  - intro In.
    destruct (validate uri options) as [m|o' s' q] eqn:V.
    + exfalso. destruct (proj1 R (ex_intro _ m eq_refl)) as [H|[[H|H]|[[s0 [E [H|H]]]|H]]];
        try congruence; try tauto; injection E as <-; tauto.
    + destruct (validate_accept _ _ _ _ _ V) as [_ [Eo [Es _]]].
      rewrite Ho in Eo. rewrite Hs in Es.
      injection Eo as -> ->. injection Es as ->.
      exists q. now destruct o'.
Qed.

Lemma quality_accepted_below_101_percent_witness :
  exists q, validate "a.jpg" quality_101_args = Accept (mkOffset 0 0) (mkSize 10 10) q.
Proof.
  apply (proj2 (quality_accepted_below_101_percent "a.jpg" quality_101_args
                  0 0 (201 # 200) (mkSize 10 10)
                  ltac:(discriminate) eq_refl eq_refl
                  ltac:(discriminate) ltac:(discriminate) eq_refl)).
  split; [discriminate | reflexivity].
Defined.

(** ** Format of the output *)

Lemma split_dot_aux_nonempty (s cur : string) : split_dot_aux cur s <> [].
Proof.
  revert cur. induction s as [|c s IH]; intro cur; cbn; [discriminate|].
  destruct (Ascii.eqb c "."); [discriminate | apply IH].
Qed.

Lemma split_dot_aux_no_dot (s cur : string) :
  no_dot s = true -> split_dot_aux cur s = [(cur ++ s)%string].
Proof.
  revert cur. induction s as [|c s IH]; intros cur H; cbn in *.
  - f_equal. induction cur as [|a cur IHc]; [reflexivity|]. cbn. now rewrite <- IHc at 1.
  - apply andb_true_iff in H. destruct H as [Hc Hs].
    apply negb_true_iff in Hc. rewrite Hc, (IH _ Hs). f_equal.
    induction cur as [|a cur IHc]; [reflexivity|]. cbn. now rewrite IHc.
Qed.

Lemma last_cons_nonempty {A : Type} (a : A) (l : list A) (d : A) :
  l <> [] -> List.last (a :: l) d = List.last l d.
Proof. destruct l; [congruence | reflexivity]. Qed.

Lemma split_dot_aux_ext (base ext cur : string) :
  no_dot ext = true ->
  List.last (split_dot_aux cur (base ++ String "." ext)) "" = ext /\
  (1 < List.length (split_dot_aux cur (base ++ String "." ext)))%nat.
Proof.
  intro H. revert cur. induction base as [|c base IH]; intro cur; cbn.
  - rewrite (split_dot_aux_no_dot ext "" H). cbn. split; [reflexivity | lia].
  - destruct (Ascii.eqb c ".").
    + destruct (IH "") as [L N]. split.
      * rewrite last_cons_nonempty; [exact L | apply split_dot_aux_nonempty].
      * cbn. lia.
    + apply IH.
Qed.

(** X4.  The format of the output is the requested format when one is
    given; otherwise it is the text after the last dot of the source
    reference, whatever that text is (it may hold a path or a query), and
    ['jpeg'] when the reference has no dot. *)
Theorem format_from_uri (fmt : option string) (base ext uri : string) :
  (truthy_opt_str fmt = true -> requestFormat uri fmt = fmt) /\
  (truthy_opt_str fmt = false -> no_dot ext = true ->
   requestFormat (base ++ String "." ext) fmt = Some ext) /\
  (truthy_opt_str fmt = false -> no_dot uri = true ->
   requestFormat uri fmt = Some "jpeg").
Proof.
  unfold requestFormat. split; [|split].
  - now intros ->.
  - intros -> H. unfold split_dot.
    destruct (split_dot_aux_ext base ext "" H) as [L N].
    apply Nat.ltb_lt in N. now rewrite N, L.
  - intros -> H. unfold split_dot. now rewrite (split_dot_aux_no_dot uri "" H).
Qed.

Lemma format_from_uri_witness :
  requestFormat "a.png" (Some "webp") = Some "webp" /\
  requestFormat ("http://host.com/shots/image" ++ String "." "PNG?v=2") None
  = Some "PNG?v=2" /\
  requestFormat "http://host.com/shots/image" None = Some "com/shots/image" /\
  requestFormat "data:image/png;base64,AAAA" None = Some "jpeg".
Proof.
  destruct (format_from_uri (Some "webp") "" "" "a.png") as [H1 _].
  destruct (format_from_uri None "http://host.com/shots/image" "PNG?v=2" "")
    as [_ [H2 _]].
  destruct (format_from_uri None "http://host" "com/shots/image" "") as [_ [H3 _]].
  destruct (format_from_uri None "" "" "data:image/png;base64,AAAA") as [_ [_ H4]].
  split; [apply H1; reflexivity|]. split; [apply H2; reflexivity|].
  split; [apply H3; reflexivity | apply H4; reflexivity].
Defined.

(** ** Mode [center] and unrecognised modes *)

Section Unknown.
Context `{P : Platform}.


(** X7.  The bounds test of [imageEditor] logs its error exactly when
    the far edge of the crop region lies beyond the width or the height of
    the decoded image.  It does not look at the near edge: a region with a
    negative offset whose far edges are inside the image is not reported,
    although it does not lie inside the image. *)
Theorem bounds_test_ignores_negative_offsets (o : offset) (s : size) (data : string) :
  let info := getImageInfo (createPixelMap data) in
  (In (LogError msg_exceeds) (snd (primaryCrop o s data))
   <-> (width info < x o + width s \/ height info < y o + height s)) /\
  (x o < 0 \/ y o < 0 ->
   x o + width s <= width info -> y o + height s <= height info ->
   ~ fits (cropRegion o s) info /\
   ~ In (LogError msg_exceeds) (snd (primaryCrop o s data))).
Proof.
  intro info.
  assert (E : In (LogError msg_exceeds) (snd (primaryCrop o s data))
              <-> exceeds o s info = true).
  { unfold primaryCrop. cbv zeta. fold info.
    destruct (crop _ _), (exceeds o s info); cbn; split; intro H;
      try reflexivity; try discriminate; intuition discriminate. }
  assert (X : exceeds o s info = true
              <-> (width info < x o + width s \/ height info < y o + height s)).
  { unfold exceeds. now rewrite orb_true_iff, !num_gt_true. }
  split; [now rewrite E, X|].
  intros N Lw Lh. split.
  - intros [F1 [F2 _]]. cbn [cropRegion rx ry] in F1, F2.
    destruct N as [N|N]; [exact (Qlt_not_le _ _ N F1) | exact (Qlt_not_le _ _ N F2)].
  - rewrite E, X. intros [H|H];
      [exact (Qlt_not_le _ _ H Lw) | exact (Qlt_not_le _ _ H Lh)].
Qed.

End Unknown.


Lemma bounds_test_ignores_negative_offsets_witness :
  let P := Sim.platform (mkSize 40 40) in
  let o := mkOffset (-5) 0 in
  let s := mkSize 20 20 in
  ~ fits (cropRegion o s) (mkSize 40 40) /\
  ~ In (LogError msg_exceeds) (snd (@primaryCrop P o s "a.png")).
Proof.
  intros P o s.
  destruct (@bounds_test_ignores_negative_offsets P o s "a.png") as [_ H].
  apply H; [left; reflexivity | discriminate | discriminate].
Defined.

(** ** Module state across calls *)

Section Sticky.
Context `{P : Platform}.

Lemma Shared_cropImage_keeps
  (uri : string) (options : CropArgs) (st : Shared.module_state) (w : world) :
  let st' := proj4_2 (Shared.cropImage uri options st w) in
  (d_includeBase64 (Shared.newOptions st) = Some true ->
   d_includeBase64 (Shared.newOptions st') = Some true) /\
  (d_displaySize (Shared.newOptions st) <> None ->
   d_displaySize (Shared.newOptions st') <> None).
Proof.
  destruct (validate uri options) as [m|o s q] eqn:V.
  - unfold Shared.cropImage. rewrite V. cbn. tauto.
  - destruct (Shared_cropImage_accepted uri options o s q st w V)
      as [st' [w' [tr [E [Sm _]]]]].
    rewrite E. cbn [proj4_2 fst snd].
    destruct Sm as [_ [_ [Ed [_ [_ Ei]]]]]. rewrite <- Ed, <- Ei.
    cbn [Shared.store Shared.newOptions d_includeBase64 d_displaySize]. split.
    + intro H. destruct (a_includeBase64 options) as [[|]|]; cbn; auto.
    + intro H. destruct (a_displaySize options); [discriminate | exact H].
Qed.

(** X8.  In the variant with module-scope state, [includeBase64] and
    [displaySize] are sticky: once a call has switched [includeBase64] on,
    it stays on through every later call, accepted or not; and once a
    display size is stored, later calls never run without one. *)
Theorem stored_options_are_sticky
  (cs : list call) (st : Shared.module_state) (fs : FS) :
  (d_includeBase64 (Shared.newOptions st) = Some true ->
   d_includeBase64 (Shared.newOptions (fst (calls cs st fs))) = Some true) /\
  (d_displaySize (Shared.newOptions st) <> None ->
   d_displaySize (Shared.newOptions (fst (calls cs st fs))) <> None).
Proof.
  revert st fs. induction cs as [|c cs IH]; intros st fs; [cbn; tauto|].
  cbn [calls].
  destruct (Shared_cropImage_keeps (c_uri c) (c_options c) st (mkWorld fs (c_now c)))
    as [K1 K2].
  destruct (IH (proj4_2 (Shared.cropImage (c_uri c) (c_options c) st
                           (mkWorld fs (c_now c))))
               (w_fs (proj4_3 (Shared.cropImage (c_uri c) (c_options c) st
                                 (mkWorld fs (c_now c)))))) as [I1 I2].
  split; intro H; [apply I1, K1, H | apply I2, K2, H].
Qed.

Lemma Shared_persist_newOptions
  (st st' : Shared.module_state) (w : world) (pm : PixelMap) :
  Shared.newOptions st = Shared.newOptions st' ->
  Shared.persist st w pm = Shared.persist st' w pm.
Proof. intro E. unfold Shared.persist. now rewrite E. Qed.

Lemma Shared_TargetRect_cover_fresh (st : Shared.module_state) (s s' : size) :
  Shared.TargetRect (Shared.set_resizeScaleSize (Shared.set_resizeScaleSize st s) s')
  = Shared.TargetRect (Shared.set_resizeScaleSize st s').
Proof. reflexivity. Qed.

Lemma Shared_TargetRect_not_cover (st : Shared.module_state) (s : size) :
  str_is (d_resizeMode (Shared.newOptions st)) "cover" = false ->
  Shared.TargetRect (Shared.set_resizeScaleSize st s) = Shared.TargetRect st.
Proof.
  intro H. unfold Shared.TargetRect.
  cbn [Shared.set_resizeScaleSize Shared.newOptions]. now rewrite H.
Qed.

Lemma equal_sizes_equal_aspects (c d : size) :
  num_neq (width d) (width c) || num_neq (height d) (height c) = false ->
  num_eq (width c / height c) (width d / height d) = true.
Proof.
  intro H. apply orb_false_iff in H. destruct H as [Hw Hh].
  unfold num_neq in Hw, Hh. rewrite negb_false_iff in Hw, Hh.
  apply Qeq_bool_iff in Hw, Hh. apply num_eq_true. now rewrite Hw, Hh.
Qed.

(** X9.  The module-scope [resizeScaleSize] does not carry over from one
    call to the next: whatever value it holds when the resize stage
    starts, the stage yields the same image, the same request and the same
    trace, because mode [cover] always re-measures before [TargetRect]
    reads it. *)
Theorem resizeScaleSize_never_stale
  (st : Shared.module_state) (s : size) (pm : PixelMap) :
  resized (Shared.resize (Shared.set_resizeScaleSize st s) pm)
  = resized (Shared.resize st pm).
Proof.
  unfold Shared.resize.
  cbn [Shared.set_resizeScaleSize Shared.newOptions].
  destruct (displayGiven _) as [d|] eqn:G; [|reflexivity].
  cbv zeta.
  destruct (num_eq _ _) eqn:A.
  { cbn [Shared.set_resizeMode Shared.newOptions d_resizeMode str_is].
    reflexivity. }
  destruct (str_is _ "stretch"); [reflexivity|].
  destruct (str_is _ "cover") eqn:C.
  - destruct (num_neq _ _ || num_neq _ _) eqn:N.
    + rewrite Shared_TargetRect_cover_fresh.
      destruct (Shared.TargetRect _) as [r|]; [|reflexivity].
      destruct (crop _ r); reflexivity.
    + apply equal_sizes_equal_aspects in N. congruence.
  - rewrite (Shared_TargetRect_not_cover st s C).
    destruct (Shared.TargetRect st); reflexivity.
Qed.

End Sticky.

Lemma stored_options_are_sticky_witness :
  let P := Sim.platform (mkSize 40 40) in
  let w : @world P := mkWorld [] 1700%Z in
  let st := proj4_2 (Shared.cropImage "a.png" first_args
                       (proj4_2 (Shared.cropImage "a.png" base64_args Shared.initial w))
                       w) in
  let later := [mkCall "b.png" second_args 1701%Z; mkCall "" second_args 1702%Z] in
  d_includeBase64 (Shared.newOptions (fst (calls later st []))) = Some true /\
  d_displaySize (Shared.newOptions (fst (calls later st []))) <> None.
Proof.
  intros P w st later.
  destruct (@stored_options_are_sticky P later st []) as [H1 H2].
  split; [apply H1; reflexivity | apply H2; discriminate].
Defined.

(** ** A failing packer *)

Section Failing.
Context `{P : Platform}.

(** X10.  When the packer fails, the call still fulfils its promise with
    the uri of the output file and logs ['packing failed.'].  The
    request-scoped variant leaves the file system untouched, so the uri
    names a file the call never created; the variant with module-scope
    state has already created the file before packing. *)
Theorem failed_packing_still_returns_uri
  (uri : string) (options : CropArgs) (o : offset) (s : size) (q : number)
  (st : Shared.module_state) (w : world) :
  validate uri options = Accept o s q ->
  (forall pm f k, packing pm f k = None) ->
  let fmt := requestFormat uri (a_format options) in
  (exists tr,
     Scoped.cropImage uri options w
     = (Returned (Some (fileUriOf (w_now w) fmt)), w, tr) /\
     In (LogError msg_packing_failed) tr /\
     forall p, ~ In (IoOpenCreate p) tr) /\
  (exists st' tr,
     Shared.cropImage uri options st w
     = (Returned (Some (fileUriOf (w_now w) fmt)), st',
        mkWorld (openCreate (w_fs w) (filePathOf (w_now w) fmt)) (w_now w), tr) /\
     In (LogError msg_packing_failed) tr /\
     In (IoOpenCreate (filePathOf (w_now w) fmt)) tr).
Proof.
  intros V F fmt. split.
  - unfold Scoped.cropImage, Scoped.imageEditor. rewrite V.
    destruct (Scoped.acquire uri) as [[data openFile] tr0] eqn:A.
    assert (T0 : forall p, ~ In (IoOpenCreate p) tr0).
    { unfold Scoped.acquire in A. revert A. case_ifs; intro A;
        injection A as <- <- <-; intros p [H|[]]; discriminate H. }
    destruct (primaryCrop _ _ data) as [pm1 tr1] eqn:C.
    assert (T1 : forall p, ~ In (IoOpenCreate p) tr1).
    { unfold primaryCrop in C. revert C. cbv zeta.
      destruct (crop _ _), (exceeds _ _ _); intro C; injection C as <- <-;
        intros k H; cbn in H; intuition discriminate. }
    destruct (Scoped_resize_shape (Scoped.request uri options o s q) pm1)
      as [pm2 [o' [tr2 [R [Sm [_ Px]]]]]].
    rewrite R. destruct Sm as [_ [_ [_ [_ [Ef _]]]]].
    cbn [Scoped.request d_format] in Ef.
    unfold Scoped.persist. rewrite F, <- Ef. cbv zeta. fold fmt.
    destruct w as [fs now]. cbn [w_fs w_now].
    eexists. split; [reflexivity|]. split.
    + rewrite !in_app_iff. right. right. right. cbn. tauto.
    + intros p H. rewrite !in_app_iff in H.
      destruct H as [H|[H|[H|H]]].
      * exact (T0 p H).
      * exact (T1 p H).
      * clear -Px H. induction tr2 as [|e tr2 IH]; [exact H|].
        cbn in Px. apply andb_true_iff in Px. destruct Px as [Pe Pt].
        destruct H as [H|H]; [subst e; discriminate Pe | exact (IH Pt H)].
      * cbn in H. destruct openFile; cbn in H; intuition discriminate.
  - unfold Shared.cropImage, Shared.imageEditor. rewrite V.
    destruct (Shared.getUriBuffer uri) as [buffer tr0].
    destruct (primaryCrop _ _ buffer) as [pm1 tr1].
    destruct (Shared_resize_shape (Shared.store st uri options o s q) pm1)
      as [pm2 [st' [tr2 [R [Sm _]]]]].
    rewrite R. destruct Sm as [_ [_ [_ [_ [Ef _]]]]].
    cbn [Shared.store Shared.newOptions d_format] in Ef.
    unfold Shared.persist. rewrite F, <- Ef. cbv zeta. fold fmt.
    do 2 eexists. split; [reflexivity|]. split.
    + rewrite !in_app_iff. right. right. right. cbn. tauto.
    + rewrite !in_app_iff. right. right. right. cbn. tauto.
Qed.

End Failing.

Lemma failed_packing_still_returns_uri_witness :
  let P := unpackable (mkSize 40 40) in
  let w : @world P := mkWorld [] 1700%Z in
  let args := full_args (mkSize 2 3) in
  (exists tr,
     Scoped.cropImage "a.png" args w
     = (Returned (Some "file:///cache/ReactNative_cropped_image_1700.png"), w, tr) /\
     In (LogError msg_packing_failed) tr /\
     forall p, ~ In (IoOpenCreate p) tr) /\
  (exists st' tr,
     Shared.cropImage "a.png" args Shared.initial w
     = (Returned (Some "file:///cache/ReactNative_cropped_image_1700.png"), st',
        mkWorld [("/cache/ReactNative_cropped_image_1700.png", [])] 1700%Z, tr) /\
     In (LogError msg_packing_failed) tr /\
     In (IoOpenCreate "/cache/ReactNative_cropped_image_1700.png") tr).
Proof.
  intros P w args.
  exact (@failed_packing_still_returns_uri P "a.png" args (mkOffset 0 0) (mkSize 2 3) 90
           Shared.initial w eq_refl (fun _ _ _ => eq_refl)).
Defined.

(** ** The two variants side by side *)

Lemma TargetRect_agree (st : Shared.module_state) (o : ImageCropData) (r : option size) :
  d_size (Shared.newOptions st) = d_size o ->
  d_displaySize (Shared.newOptions st) = d_displaySize o ->
  d_resizeMode (Shared.newOptions st) = d_resizeMode o ->
  str_is (d_resizeMode o) "cover" = false ->
  Shared.TargetRect st = Scoped.TargetRect o r.
Proof.
  intros Es Ed Em C. unfold Shared.TargetRect, Scoped.TargetRect.
  rewrite Es, Ed, Em, C. destruct (d_displaySize o); [|reflexivity].
  case_ifs; reflexivity.
Qed.

Section Agree.
Context `{P : Platform}.

Lemma resize_agree (st : Shared.module_state) (o : ImageCropData) (pm : PixelMap) :
  d_size (Shared.newOptions st) = d_size o ->
  d_displaySize (Shared.newOptions st) = d_displaySize o ->
  d_resizeMode (Shared.newOptions st) = d_resizeMode o ->
  str_is (d_resizeMode o) "cover" = false ->
  exists pm' st' o' tr,
    Shared.resize st pm = Some (pm', st', tr) /\
    Scoped.resize o pm = Some (pm', o', tr) /\
    d_resizeMode (Shared.newOptions st') = d_resizeMode o'.
Proof.
  intros Es Ed Em C. unfold Shared.resize, Scoped.resize. rewrite Ed, Es.
  destruct (displayGiven _) as [d|] eqn:G.
  2:{ exists pm, st, o, []. now repeat split. }
  apply displayGiven_Some in G. cbv zeta.
  destruct (num_eq _ _).
  { do 4 eexists. split; [reflexivity|]. split; reflexivity. }
  rewrite Em. destruct (str_is _ "stretch").
  { do 4 eexists. split; [reflexivity|]. split; [reflexivity | exact Em]. }
  rewrite C. rewrite (TargetRect_agree st o None Es Ed Em C).
  destruct (Scoped_TargetRect_total o d None G) as [r Hr]; [rewrite C; discriminate|].
  rewrite Hr. do 4 eexists. split; [reflexivity|]. split; [reflexivity | exact Em].
Qed.

(** X13.  For a request that gives a display size and a resize mode other
    than [cover], the two variants perform the same pixel operations:
    from any module state, the resize stage of the variant with
    module-scope state yields the same image and the same trace as the
    request-scoped one, and ends in the same mode. *)
Theorem variants_agree_outside_cover
  (uri : string) (options : CropArgs) (o : offset) (s d : size) (q : number)
  (mode : string) (st : Shared.module_state) (pm : PixelMap) :
  a_displaySize options = Some d ->
  a_resizeMode options = Some mode -> mode <> "" -> mode <> "cover" ->
  exists pm' st' o' tr,
    Shared.resize (Shared.store st uri options o s q) pm = Some (pm', st', tr) /\
    Scoped.resize (Scoped.request uri options o s q) pm = Some (pm', o', tr) /\
    d_resizeMode (Shared.newOptions st') = d_resizeMode o'.
Proof.
  intros Hd Hm Ne Nc.
  assert (T : truthy_str mode = true).
  { unfold truthy_str. apply negb_true_iff. now apply String.eqb_neq. }
  apply resize_agree.
  - reflexivity.
  - cbn. now rewrite Hd.
  - cbn. rewrite Hm. cbn. now rewrite T.
  - cbn. rewrite Hm. cbn. now apply String.eqb_neq.
Qed.




End Agree.

Lemma variants_agree_outside_cover_witness :
  let P := Sim.platform (mkSize 40 40) in
  let options := mode_args (mkSize 20 10) (mkSize 10 10) "center" in
  let pm : @PixelMap P := mkSize 20 10 in
  exists pm' st' o' tr,
    Shared.resize (Shared.store Shared.initial "a.png" options (mkOffset 0 0)
                                (mkSize 20 10) 90) pm = Some (pm', st', tr) /\
    Scoped.resize (Scoped.request "a.png" options (mkOffset 0 0) (mkSize 20 10) 90) pm
    = Some (pm', o', tr) /\
    d_resizeMode (Shared.newOptions st') = d_resizeMode o'.
Proof.
  intros P options pm.
  apply (@variants_agree_outside_cover P "a.png" options (mkOffset 0 0)
           (mkSize 20 10) (mkSize 10 10) 90 "center" Shared.initial pm);
    try reflexivity; discriminate.
Defined.

(** ** Failures that are only logged *)

Section Logged.
Context `{P : Platform}.

(** X15.  When the platform rejects the primary crop and no display size
    is in effect, both variants log ['imageEditor.Failed to crop.'] and go
    on with the whole decoded image: the result has the dimensions of the
    source, not of the requested region. *)
Theorem failed_crop_returns_whole_source
  (st : Shared.module_state) (o : ImageCropData) (w : world) (uri : string) :
  let source := getImageInfo (createPixelMap uri) in
  crop (createPixelMap uri)
       (cropRegion (d_offset (Shared.newOptions st)) (d_size (Shared.newOptions st)))
  = None ->
  d_offset o = d_offset (Shared.newOptions st) ->
  d_size o = d_size (Shared.newOptions st) ->
  d_displaySize (Shared.newOptions st) = None -> d_displaySize o = None ->
  (exists res st' w' tr,
     Shared.imageEditor uri st w = (Some res, st', w', tr) /\
     res_width res = width source /\ res_height res = height source /\
     In (LogError msg_crop_failed) tr) /\
  (exists res o' w' tr,
     Scoped.imageEditor o uri w = (Some res, o', w', tr) /\
     res_width res = width source /\ res_height res = height source /\
     In (LogError msg_crop_failed) tr).
Proof.
  intros source C Eo Es D1 D2. split.
  - unfold Shared.imageEditor, primaryCrop. cbv zeta.
    unfold cropRegion in C. rewrite C.
    unfold Shared.resize. rewrite D1. cbn [displayGiven].
    pose proof (Shared_persist_dims st w (createPixelMap uri)) as [Dw Dh].
    destruct (Shared.persist st w _) as [[res w'] tr3]. cbn [fst] in Dw, Dh.
    do 4 eexists. split; [reflexivity|]. split; [exact Dw|]. split; [exact Dh|].
    rewrite !in_app_iff. left. right. right. cbn. tauto.
  - unfold Scoped.imageEditor.
    pose proof (acquire_data uri) as A.
    destruct (Scoped.acquire uri) as [[data openFile] tr0]. cbn [fst] in A. subst data.
    unfold primaryCrop. cbv zeta. rewrite Eo, Es.
    unfold cropRegion in C. rewrite C.
    unfold Scoped.resize. rewrite D2. cbn [displayGiven].
    pose proof (Scoped_persist_dims o openFile w (createPixelMap uri)) as [Dw Dh].
    destruct (Scoped.persist o openFile w _) as [[res w'] tr3]. cbn [fst] in Dw, Dh.
    do 4 eexists. split; [reflexivity|]. split; [exact Dw|]. split; [exact Dh|].
    rewrite !in_app_iff. right. left. right. right. cbn. tauto.
Qed.

(** X16.  When [writeSync] throws after a successful packing, the result
    is still assembled.  The request-scoped variant logs ['file write
    failed'], reports the size 0 and still carries the base64 payload of
    the encoded image when one was asked for; the variant with
    module-scope state logs ['packing failed.'], reports the size read
    back from the file system and carries an empty payload. *)
Theorem failed_write_is_only_logged
  (st : Shared.module_state) (o : ImageCropData) (b : bool) (w : world)
  (pm : PixelMap) (data : bytes) :
  (forall f q, packing pm f q = Some data) ->
  (forall fs p, writeSync fs p data = None) ->
  let shared := Shared.persist st w pm in
  let scoped := Scoped.persist o b w pm in
  (res_size (proj3_1 scoped) = 0%Z /\
   In (LogError msg_write_failed) (proj3_3 scoped) /\
   (d_includeBase64 o = Some true ->
    res_base64 (proj3_1 scoped) = Some (encodeToStringSync data))) /\
  (res_size (proj3_1 shared)
   = statSize (openCreate (w_fs w) (res_path (proj3_1 shared))) (res_path (proj3_1 shared)) /\
   In (LogError msg_packing_failed) (proj3_3 shared) /\
   (d_includeBase64 (Shared.newOptions st) = Some true ->
    res_base64 (proj3_1 shared) = Some "")).
Proof.
  intros Fp Fw shared scoped. split.
  - unfold scoped, Scoped.persist. cbv zeta. rewrite Fp, Fw.
    cbn [proj3_1 proj3_3 fst snd res_size res_base64].
    split; [reflexivity|]. split.
    + rewrite !in_app_iff. right. left. right. left. cbn. tauto.
    + intros ->. reflexivity.
  - unfold shared, Shared.persist. cbv zeta. rewrite Fp, Fw.
    cbn [proj3_1 proj3_3 fst snd res_size res_base64 res_path].
    split; [reflexivity|]. split.
    + rewrite !in_app_iff. right. left. cbn. tauto.
    + intros ->. reflexivity.
Qed.

End Logged.

Lemma failed_crop_returns_whole_source_witness :
  let P := Sim.platform (mkSize 40 40) in
  let w : @world P := mkWorld [] 1700%Z in
  let st := Shared.store Shared.initial "a.png" outside_args (mkOffset 30 30)
                         (mkSize 20 20) 90 in
  (exists res st' w' tr,
     Shared.imageEditor "a.png" st w = (Some res, st', w', tr) /\
     res_width res = 40 /\ res_height res = 40 /\
     In (LogError msg_crop_failed) tr) /\
  (exists res o' w' tr,
     Scoped.imageEditor (Shared.newOptions st) "a.png" w = (Some res, o', w', tr) /\
     res_width res = 40 /\ res_height res = 40 /\
     In (LogError msg_crop_failed) tr).
Proof.
  intros P w st.
  exact (@failed_crop_returns_whole_source P st (Shared.newOptions st) w "a.png"
           eq_refl eq_refl eq_refl eq_refl eq_refl).
Defined.

Lemma failed_write_is_only_logged_witness :
  let P := unwritable (mkSize 40 40) in
  let w : @world P := mkWorld [] 1700%Z in
  let st := Shared.store Shared.initial "a.png" base64_args (mkOffset 0 0)
                         (mkSize 2 3) 90 in
  let pm : @PixelMap P := mkSize 2 3 in
  let shared := Shared.persist st w pm in
  let scoped := Scoped.persist (Shared.newOptions st) true w pm in
  (res_size (proj3_1 scoped) = 0%Z /\
   In (LogError msg_write_failed) (proj3_3 scoped) /\
   res_base64 (proj3_1 scoped) = Some (encodeToStringSync (Sim.pack pm))) /\
  (res_size (proj3_1 shared) = 0%Z /\
   In (LogError msg_packing_failed) (proj3_3 shared) /\
   res_base64 (proj3_1 shared) = Some "").
Proof.
  intros P w st pm shared scoped.
  destruct (@failed_write_is_only_logged P st (Shared.newOptions st) true w pm
              (Sim.pack pm) (fun _ _ => eq_refl) (fun _ _ => eq_refl))
    as [[A1 [A2 A3]] [B1 [B2 B3]]].
  split.
  - split; [exact A1|]. split; [exact A2 | apply A3; reflexivity].
  - split; [exact B1|]. split; [exact B2 | apply B3; reflexivity].
Defined.
